(** * JOI assistant front end: the chat page of [joi-frontend/src/Pages/Home.jsx]

    A shallow embedding of the WebSocket client of the chat page: the
    response transformer ([cleanResponse], [formatResponse]), the stream
    accumulator ([displayResponse], [ws.onmessage]), the reconnection
    policy ([ws.onclose]) and the conversation store ([handleSend],
    [handleLoadConversation], [handleNewConversation]).

    JavaScript strings are modelled as lists of 8-bit code units; the
    regular expressions of the source are written as syntax trees and run
    by a backtracking matcher that follows the ECMAScript matching rules
    (priority of alternatives, greedy and lazy quantifiers, lookahead). *)

From Stdlib Require Import Ascii String DecimalString.
From Stdlib Require Import List ZArith Lia Bool Arith PeanoNat.
Import ListNotations.

Set Implicit Arguments.

(** ** JavaScript strings *)

Module JS.

Definition str := list ascii.

(** A string literal of the source. *)
Definition L (s : string) : str := list_ascii_of_string s.

Definition code (c : ascii) : nat := nat_of_ascii c.

Definition NL : ascii := ascii_of_nat 10.
Definition CR : ascii := ascii_of_nat 13.
Definition DQ : ascii := ascii_of_nat 34.
Definition BQ : ascii := ascii_of_nat 96.

Definition str_eqb (a b : str) : bool :=
  if list_eq_dec ascii_dec a b then true else false.

(** [\d], [\w], [\s] and the line terminators, on code units below 256. *)
Definition is_digit (c : ascii) : bool :=
  (48 <=? code c) && (code c <=? 57).

Definition is_word (c : ascii) : bool :=
  is_digit c
  || ((65 <=? code c) && (code c <=? 90))
  || ((97 <=? code c) && (code c <=? 122))
  || (code c =? 95).

Definition is_line_terminator (c : ascii) : bool :=
  (code c =? 10) || (code c =? 13).

Definition is_space (c : ascii) : bool :=
  ((9 <=? code c) && (code c <=? 13)) || (code c =? 32) || (code c =? 160).

(** Case folding of the [i] flag.  The patterns of the source are ASCII, and
    no code unit above 127 folds into the ASCII range, so folding the ASCII
    letters is all a comparison against a pattern character can observe. *)
Definition upper (c : ascii) : ascii :=
  if (97 <=? code c) && (code c <=? 122) then ascii_of_nat (code c - 32) else c.

(** [String.prototype.toLowerCase], observed through [includes('date')]. *)
Definition lower (c : ascii) : ascii :=
  if (65 <=? code c) && (code c <=? 90) then ascii_of_nat (code c + 32) else c.

Definition toLowerCase (s : str) : str := map lower s.

Fixpoint starts_with (p s : str) : bool :=
  match p, s with
  | [], _ => true
  | a :: p', b :: s' => if ascii_dec a b then starts_with p' s' else false
  | _ :: _, [] => false
  end.

(** [s.includes(p)]. *)
Fixpoint includes (p s : str) : bool :=
  starts_with p s ||
  match s with
  | [] => false
  | _ :: s' => includes p s'
  end.

(** First index at which [p] occurs in [s], if any. *)
Fixpoint find_from (p s : str) : option nat :=
  if starts_with p s then Some 0
  else match s with
       | [] => None
       | _ :: s' => option_map S (find_from p s')
       end.

(** [s.indexOf(p, from)]: -1 when [p] does not occur at or after [from]. *)
Definition indexOf (s p : str) (from : Z) : Z :=
  let k := Z.to_nat (Z.min (Z.max from 0) (Z.of_nat (length s))) in
  match find_from p (skipn k s) with
  | Some i => Z.of_nat (k + i)
  | None => (-1)%Z
  end.

(** Relative index of [slice]: negative counts from the end, then clamped. *)
Definition rel_index (len : nat) (i : Z) : nat :=
  if (i <? 0)%Z then Z.to_nat (Z.max (Z.of_nat len + i) 0)
  else Z.to_nat (Z.min i (Z.of_nat len)).

(** [s.slice(a, b)] and [s.slice(a)]. *)
Definition slice (s : str) (a b : Z) : str :=
  let from := rel_index (length s) a in
  let to := rel_index (length s) b in
  firstn (to - from) (skipn from s).

Definition slice_from (s : str) (a : Z) : str :=
  skipn (rel_index (length s) a) s.

Fixpoint trimStart (s : str) : str :=
  match s with
  | c :: s' => if is_space c then trimStart s' else s
  | [] => []
  end.

Definition trimEnd (s : str) : str := rev (trimStart (rev s)).

(** [s.trim()]. *)
Definition trim (s : str) : str := trimEnd (trimStart s).

(** [n.toString()] for an integer [n]. *)
Definition toString (n : Z) : str :=
  L (NilZero.string_of_int (Z.to_int n)).

(** [s.padStart(n, '0')]. *)
Definition padStart0 (n : nat) (s : str) : str :=
  repeat (ascii_of_nat 48) (n - length s) ++ s.

End JS.

Import JS.

(** ** Regular expressions *)

Module Regex.

Inductive greed := Greedy | Lazy.

(** Syntax of the patterns that occur in the source. *)
Inductive regex :=
| Chr (c : ascii)                  (* a literal character *)
| Dot                              (* .  *)
| Digit                            (* \d *)
| Word                             (* \w *)
| Space                            (* \s *)
| Any                              (* [\s\S] *)
| Cat (r1 r2 : regex)
| Alt (r1 r2 : regex)              (* r1|r2 *)
| Rep (min : nat) (max : option nat) (g : greed) (r : regex)
| Group (i : nat) (r : regex)      (* i-th capturing group *)
| Look (r : regex)                 (* (?=r) *)
| Eos                              (* $ without the m flag *)
| Eps.

Record flags := { ignoreCase : bool; dotAll : bool }.

Definition captures := list (nat * str).

Definition capture (i : nat) (c : captures) : option str :=
  option_map snd (find (fun p => fst p =? i) c).

(** A successful match: the unread rest of the input and the captures. *)
Definition result := (str * captures)%type.
Definition cont := str -> captures -> option result.

Definition pred_max (m : option nat) : option nat := option_map pred m.

Definition max_is_zero (m : option nat) : bool :=
  match m with Some 0 => true | _ => false end.

Definition char_matches (fl : flags) (r : regex) (c : ascii) : bool :=
  match r with
  | Chr p => if ignoreCase fl
             then if ascii_dec (upper p) (upper c) then true else false
             else if ascii_dec p c then true else false
  | Dot => dotAll fl || negb (is_line_terminator c)
  | Digit => is_digit c
  | Word => is_word c
  | Space => is_space c
  | Any => true
  | _ => false
  end.

Definition one_char (fl : flags) (r : regex) (s : str) (caps : captures)
  (k : cont) : option result :=
  match s with
  | c :: s' => if char_matches fl r c then k s' caps else None
  | [] => None
  end.

(** ECMAScript's RepeatMatcher for a body matcher [m]: an iteration that
    consumes nothing once the minimum is reached is rejected, so the loop
    makes at most [min + length s] iterations. *)
Fixpoint repeat_matcher (m : str -> captures -> cont -> option result)
  (g : greed) (k : cont) (fuel min : nat) (max : option nat)
  (s : str) (caps : captures) {struct fuel} : option result :=
  match fuel with
  | O => None
  | S fuel' =>
      if max_is_zero max then k s caps
      else
        let d : cont := fun s1 c1 =>
          if (min =? 0) && (length s1 =? length s) then None
          else repeat_matcher m g k fuel' (pred min) (pred_max max) s1 c1 in
        if 0 <? min then m s caps d
        else match g with
             | Lazy =>
                 match k s caps with
                 | Some z => Some z
                 | None => m s caps d
                 end
             | Greedy =>
                 match m s caps d with
                 | Some z => Some z
                 | None => k s caps
                 end
             end
  end.

(** The matcher, in continuation-passing style: [run fl r s caps k] matches
    [r] at the head of [s] and hands the rest to [k]; a failure of [k]
    backtracks into [r].  (No pattern of the source has a capturing group
    under a quantifier, so the per-iteration reset of captures is not
    modelled.) *)
Fixpoint run (fl : flags) (r : regex) (s : str) (caps : captures) (k : cont)
  {struct r} : option result :=
  match r with
  | Chr _ | Dot | Digit | Word | Space | Any => one_char fl r s caps k
  | Cat r1 r2 => run fl r1 s caps (fun s1 c1 => run fl r2 s1 c1 k)
  | Alt r1 r2 =>
      match run fl r1 s caps k with
      | Some z => Some z
      | None => run fl r2 s caps k
      end
  | Rep min max g r1 =>
      repeat_matcher (run fl r1) g k (S (min + length s)) min max s caps
  | Group i r1 =>
      run fl r1 s caps
        (fun s1 c1 => k s1 ((i, firstn (length s - length s1) s) :: c1))
  | Look r1 =>
      match run fl r1 s caps (fun s1 c1 => Some (s1, c1)) with
      | Some (_, c1) => k s c1
      | None => None
      end
  | Eos => match s with [] => k s caps | _ :: _ => None end
  | Eps => k s caps
  end.

(** One attempt at the head of [s]. *)
Definition match_here (fl : flags) (r : regex) (s : str) : option result :=
  run fl r s [] (fun s1 c1 => Some (s1, c1)).

(** A match found by scanning: text before it, matched text, captures and
    the rest of the input. *)
Record found := {
  before : str;
  matched : str;
  groups : captures;
  rest : str
}.

(** [RegExp.prototype.exec] from a start position: the leftmost position at
    which an attempt succeeds. *)
Fixpoint exec (fl : flags) (r : regex) (s : str) : option found :=
  match match_here fl r s with
  | Some (s1, c1) =>
      Some {| before := []; matched := firstn (length s - length s1) s;
              groups := c1; rest := s1 |}
  | None =>
      match s with
      | [] => None
      | c :: s' =>
          match exec fl r s' with
          | Some f => Some {| before := c :: before f; matched := matched f;
                              groups := groups f; rest := rest f |}
          | None => None
          end
      end
  end.

(** [s.replace(r, '')] for a pattern with the [g] flag: every match, found
    left to right from the end of the previous one, is deleted.  [skip]
    counts the characters of the current match still to be dropped; after an
    empty match the scan moves on by one character. *)
Fixpoint delete_all (fl : flags) (r : regex) (skip : nat) (s : str) : str :=
  match s with
  | [] => []
  | c :: s' =>
      match skip with
      | S n => delete_all fl r n s'
      | O =>
          match match_here fl r s with
          | Some (s1, _) =>
              match length s - length s1 with
              | O => c :: delete_all fl r 0 s'
              | S n => delete_all fl r n s'
              end
          | None => c :: delete_all fl r 0 s'
          end
      end
  end.

Definition replace_all (fl : flags) (r : regex) (s : str) : str :=
  delete_all fl r 0 s.

(** The [while ((match = re.exec(text)) !== null)] loop over a pattern with
    the [g] flag: all matches, each searched from the end of the previous
    one.  (On an empty match the source loop would not advance; the pattern
    it is used with never matches the empty string.) *)
Fixpoint exec_all (fl : flags) (r : regex) (skip : nat) (s : str)
  : list (str * captures) :=
  match s with
  | [] => []
  | _ :: s' =>
      match skip with
      | S n => exec_all fl r n s'
      | O =>
          match match_here fl r s with
          | Some (s1, c1) =>
              match length s - length s1 with
              | O => exec_all fl r 0 s'
              | S n => (firstn (S n) s, c1) :: exec_all fl r n s'
              end
          | None => exec_all fl r 0 s'
          end
      end
  end.

(** Helpers to write patterns. *)
Fixpoint lit (s : str) : regex :=
  match s with
  | [] => Eps
  | [c] => Chr c
  | c :: s' => Cat (Chr c) (lit s')
  end.

Definition star (g : greed) (r : regex) : regex := Rep 0 None g r.
Definition plus (g : greed) (r : regex) : regex := Rep 1 None g r.
Definition times (a b : nat) (r : regex) : regex := Rep a (Some b) Greedy r.
Definition at_least (a : nat) (r : regex) : regex := Rep a None Greedy r.

Fixpoint cat (rs : list regex) : regex :=
  match rs with
  | [] => Eps
  | [r] => r
  | r :: rs' => Cat r (cat rs')
  end.

Fixpoint alt (rs : list regex) : regex :=
  match rs with
  | [] => Eps
  | [r] => r
  | r :: rs' => Alt r (alt rs')
  end.

End Regex.

Import Regex.

(** ** Host environment

    What the page takes from the browser and cannot compute itself: the
    local time zone, the implementation-defined part of [Date.parse], and
    the pseudo-random source behind [Math.random]. *)

Record Host := {
  (** offset of local time from UTC, in milliseconds, at a UTC time value *)
  localTZA : Z -> Z;
  (** [Date.parse] on a string that is not in the ISO date format:
      implementation-defined; [None] is NaN *)
  parseFallback : str -> option Z;
  (** the [n]-th evaluation of [Math.random().toString(36).substr(2, 9)] *)
  random36 : nat -> str
}.

(** ** Dates *)

Module JSDate.

Local Open Scope Z_scope.

Definition msPerDay : Z := 86400000.

Definition is_leap (y : Z) : bool :=
  ((y mod 4 =? 0) && negb (y mod 100 =? 0)) || (y mod 400 =? 0).

Definition days_in_month (y m : Z) : Z :=
  if m =? 2 then (if is_leap y then 29 else 28)
  else if (m =? 4) || (m =? 6) || (m =? 9) || (m =? 11) then 30
  else 31.

(** Day number (days since 1970-01-01) of a civil date. *)
Definition days_from_civil (y m d : Z) : Z :=
  let y' := if m <=? 2 then y - 1 else y in
  let era := y' / 400 in
  let yoe := y' - era * 400 in
  let mp := if m <=? 2 then m + 9 else m - 3 in
  let doy := (153 * mp + 2) / 5 + d - 1 in
  let doe := yoe * 365 + yoe / 4 - yoe / 100 + doy in
  era * 146097 + doe - 719468.

(** Civil date (year, month 1..12, day) of a day number. *)
Definition civil_from_days (z : Z) : Z * Z * Z :=
  let z' := z + 719468 in
  let era := z' / 146097 in
  let doe := z' - era * 146097 in
  let yoe := (doe - doe / 1460 + doe / 36524 - doe / 146096) / 365 in
  let doy := doe - (365 * yoe + yoe / 4 - yoe / 100) in
  let mp := (5 * doy + 2) / 153 in
  let d := doy - (153 * mp + 2) / 5 + 1 in
  let m := if mp <? 10 then mp + 3 else mp - 9 in
  let y := yoe + era * 400 in
  ((if m <=? 2 then y + 1 else y), m, d).

Definition digit_val (c : ascii) : Z := Z.of_nat (code c) - 48.

Fixpoint number_of (acc : Z) (s : str) : Z :=
  match s with
  | [] => acc
  | c :: s' => number_of (10 * acc + digit_val c) s'
  end.

(** The [YYYY-MM-DD] form of the ISO date-time format. *)
Definition iso_date (s : str) : option (Z * Z * Z) :=
  match s with
  | [y1; y2; y3; y4; h1; m1; m2; h2; d1; d2] =>
      if forallb is_digit [y1; y2; y3; y4; m1; m2; d1; d2]
         && (code h1 =? 45)%nat && (code h2 =? 45)%nat
      then Some (number_of 0 [y1; y2; y3; y4], number_of 0 [m1; m2],
                 number_of 0 [d1; d2])
      else None
  | _ => None
  end.

(** [new Date(s)] for a string [s]: the time value, [None] for an invalid
    date.  A date-only ISO string denotes UTC midnight of that day; every
    other string, and an ISO string with an out-of-range month or day, is
    left to the implementation. *)
Definition parse (h : Host) (s : str) : option Z :=
  match iso_date s with
  | Some (y, m, d) =>
      if (1 <=? m) && (m <=? 12) && (1 <=? d) && (d <=? days_in_month y m)
      then Some (days_from_civil y m d * msPerDay)
      else parseFallback h s
  | None => parseFallback h s
  end.

Definition local_civil (h : Host) (t : Z) : Z * Z * Z :=
  civil_from_days ((t + localTZA h t) / msPerDay).

Definition getFullYear (h : Host) (t : Z) : Z := fst (fst (local_civil h t)).
(** zero-based, as in JavaScript *)
Definition getMonth (h : Host) (t : Z) : Z := snd (fst (local_civil h t)) - 1.
Definition getDate (h : Host) (t : Z) : Z := snd (local_civil h t).

End JSDate.

(** ** Response transformer *)

Definition no_flags := {| ignoreCase := false; dotAll := false |}.
Definition flag_i := {| ignoreCase := true; dotAll := false |}.
Definition flag_is := {| ignoreCase := true; dotAll := true |}.

Definition nonempty (s : str) : bool :=
  match s with [] => false | _ :: _ => true end.

(** [(?=\n|$)] *)
Definition before_newline_or_end : regex := Look (Alt (Chr NL) Eos).

(** [/TOOL_CALL::.*?}/g] *)
Definition re_tool_call_args : regex :=
  cat [lit (L "TOOL_CALL::"); star Lazy Dot; lit (L "}")].
(** [/TOOL_CALL/g] *)
Definition re_tool_call : regex := lit (L "TOOL_CALL").
(** [/(\*\*|`{1,3}|\n{2,})/g] *)
Definition re_markup : regex :=
  Group 1 (alt [lit (L "**"); times 1 3 (Chr BQ); at_least 2 (Chr NL)]).
(** [/Let me (fetch|check|help|explain).*?\./gi] *)
Definition re_let_me : regex :=
  cat [lit (L "Let me ");
       Group 1 (alt [lit (L "fetch"); lit (L "check"); lit (L "help");
                     lit (L "explain")]);
       star Lazy Dot; lit (L ".")].
(** [/Let me know if.*$/gi] *)
Definition re_let_me_know : regex :=
  cat [lit (L "Let me know if"); star Greedy Dot; Eos].
(** [/Here's a simple.*?:/gi] *)
Definition re_heres_a_simple : regex :=
  cat [lit (L "Here's a simple"); star Lazy Dot; lit (L ":")].
(** [/###\s*How to run.*?(?=\n|$)/gis] *)
Definition re_how_to_run : regex :=
  cat [lit (L "###"); star Greedy Space; lit (L "How to run");
       star Lazy Dot; before_newline_or_end].
(** [/(\d+\.\s*.*?)(?=\n|$)/g] *)
Definition re_numbered : regex :=
  cat [Group 1 (cat [plus Greedy Digit; lit (L "."); star Greedy Space;
                     star Lazy Dot]);
       before_newline_or_end].

Definition cleanResponse (text : str) : str :=
  trim
    (replace_all no_flags re_numbered
    (replace_all flag_is re_how_to_run
    (replace_all flag_i re_heres_a_simple
    (replace_all flag_i re_let_me_know
    (replace_all flag_i re_let_me
    (replace_all no_flags re_markup
    (replace_all no_flags re_tool_call
    (replace_all no_flags re_tool_call_args text)))))))).

(** [/(\w+ \d{1,2}, \d{4})|(\d{4}-\d{2}-\d{2})/] *)
Definition re_date : regex :=
  Alt (Group 1 (cat [plus Greedy Word; lit (L " "); times 1 2 Digit;
                     lit (L ", "); times 4 4 Digit]))
      (Group 2 (cat [times 4 4 Digit; lit (L "-"); times 2 2 Digit;
                     lit (L "-"); times 2 2 Digit])).

(** The pattern [codeBlockRegex] of [formatResponse]: three backquotes, a
    group of [\w] repeated greedily from zero times, a newline, a group of
    [[\s\S]] repeated lazily from zero times, three backquotes; flag [g]. *)
Definition codeBlockRegex : regex :=
  cat [lit [BQ; BQ; BQ]; Group 1 (star Greedy Word); Chr NL;
       Group 2 (star Lazy Any); lit [BQ; BQ; BQ]].

Definition indent (n : nat) : str := repeat (ascii_of_nat 32) n.

(** The template literal of one code block. *)
Definition codeBlockHtml (lang code codeId : str) : str :=
  [NL] ++ indent 12 ++ L "<div class=" ++ [DQ] ++ L "code-block" ++ [DQ]
    ++ L ">" ++ [NL]
  ++ indent 14 ++ L "<div class=" ++ [DQ] ++ L "code-header" ++ [DQ]
    ++ L ">" ++ [NL]
  ++ indent 16 ++ L "<span class=" ++ [DQ] ++ L "code-lang" ++ [DQ] ++ L ">"
    ++ lang ++ L "</span>" ++ [NL]
  ++ indent 16 ++ L "<button class=" ++ [DQ] ++ L "code-btn copy-btn" ++ [DQ]
    ++ L " data-code-id=" ++ [DQ] ++ codeId ++ [DQ] ++ L ">Copy</button>"
    ++ [NL]
  ++ indent 16 ++ L "<button class=" ++ [DQ] ++ L "code-btn edit-btn" ++ [DQ]
    ++ L " data-code-id=" ++ [DQ] ++ codeId ++ [DQ] ++ L ">Edit</button>"
    ++ [NL]
  ++ indent 14 ++ L "</div>" ++ [NL]
  ++ indent 14 ++ L "<pre><code class=" ++ [DQ] ++ L "language-" ++ lang
    ++ [DQ] ++ L " id=" ++ [DQ] ++ codeId ++ [DQ] ++ L ">" ++ code
    ++ L "</code></pre>" ++ [NL]
  ++ indent 12 ++ L "</div>" ++ [NL]
  ++ indent 10.

(** [match[i]] of a match: a group that took no part is [undefined]. *)
Definition group_or_empty (i : nat) (c : captures) : str :=
  match capture i c with Some s => s | None => [] end.

(** The first loop of [formatResponse]: one [{ original, html }] per match
    of [codeBlockRegex]; the [n]-th block takes the [n]-th identifier drawn
    after the [drawn] already used. *)
Fixpoint codeBlocksOf (h : Host) (drawn : nat) (ms : list (str * captures))
  : list (str * str) :=
  match ms with
  | [] => []
  | (original, caps) :: ms' =>
      let lang := if nonempty (group_or_empty 1 caps)
                  then group_or_empty 1 caps else L "text" in
      let code := trim (group_or_empty 2 caps) in
      let codeId := L "code-" ++ random36 h drawn in
      (original, codeBlockHtml lang code codeId)
        :: codeBlocksOf h (S drawn) ms'
  end.

Definition codeBlockMatches (text : str) : list (str * captures) :=
  exec_all no_flags codeBlockRegex 0 text.

(** The [forEach] of [formatResponse], from block number [index]. *)
Fixpoint assemble (text : str) (blocks : list (str * str)) (index total : nat)
  (lastIndex : Z) (result : str) : str :=
  match blocks with
  | [] => result
  | (original, html) :: blocks' =>
      let startIndex := indexOf text original lastIndex in
      let beforeText := trim (cleanResponse (slice text lastIndex startIndex)) in
      let result := if nonempty beforeText
                    then result ++ beforeText ++ L "<br><br>" else result in
      let result := result ++ html in
      let lastIndex := (startIndex + Z.of_nat (length original))%Z in
      let result :=
        if index =? total - 1 then
          let afterText := trim (cleanResponse (slice_from text lastIndex)) in
          if nonempty afterText then result ++ L "<br><br>" ++ afterText
          else result
        else result in
      assemble text blocks' (S index) total lastIndex result
  end.

(** The date branch: [Some] output when the branch returns. *)
Definition dateResponse (h : Host) (text : str) : option str :=
  match exec no_flags re_date text with
  | Some dateMatch =>
      match JSDate.parse h (matched dateMatch) with
      | Some date =>
          Some (L "Today's date is "
                ++ padStart0 2 (toString (JSDate.getDate h date)) ++ L "/"
                ++ padStart0 2 (toString (JSDate.getMonth h date + 1)) ++ L "/"
                ++ toString (JSDate.getFullYear h date))
      | None => None
      end
  | None => None
  end.

(** [formatResponse(text)], with the closure variable [isDateQuery] and the
    number of identifiers drawn so far made explicit. *)
Definition formatResponse (h : Host) (isDateQuery : bool) (drawn : nat)
  (text : str) : str :=
  match (if isDateQuery then dateResponse h text else None) with
  | Some out => out
  | None =>
      let codeBlocks := codeBlocksOf h drawn (codeBlockMatches text) in
      let result := assemble text codeBlocks 0 (length codeBlocks) 0 [] in
      match codeBlocks with
      | [] => cleanResponse text
      | _ :: _ => result
      end
  end.

(** Number of [Math.random] calls one run of [formatResponse] makes. *)
Definition formatDraws (h : Host) (isDateQuery : bool) (text : str) : nat :=
  match (if isDateQuery then dateResponse h text else None) with
  | Some _ => 0
  | None => length (codeBlockMatches text)
  end.

(** ** Data model *)

Inductive Role := user | assistant | system.

Definition Role_eq_dec (a b : Role) : {a = b} + {a <> b}.
Proof. decide equality. Defined.

(** A message; [isStreaming] is absent ([None]) on user messages and on the
    greeting.  Time stamps are time values in milliseconds. *)
Record Message := {
  role : Role;
  content : str;
  timestamp : Z;
  isStreaming : option bool
}.

Record Conversation := {
  id : str;
  conv_messages : list Message;
  snippet : str;
  conv_timestamp : Z
}.

(** An inbound envelope, after [JSON.parse]; payloads are strings, as the
    server documents them for the types the page looks at. *)
Record Envelope := {
  type : str;
  payload : str
}.

(** Frames the page sends. *)
Inductive Outbound :=
| user_message (payload model : str)
| load_chat (conversationId : str)
| start_chat.

Inductive ReadyState := CONNECTING | OPEN | CLOSING | CLOSED.

(** A WebSocket instance: its ready state, and whether the page itself has
    called [close()] on it. *)
Record Socket := {
  readyState : ReadyState;
  closeCalled : bool
}.

Inductive TimerKind := IdleFlush | Reconnect.

(** A pending [setTimeout]. *)
Record Timer := {
  timer_id : nat;
  kind : TimerKind;
  due : Z
}.

Record State := {
  (* React state of [Home] *)
  messages : list Message;
  input : str;
  history : list Conversation;
  currentConversationId : option str;
  isSidebarOpen : bool;
  (* refs *)
  wsRef : option nat;
  lastChunkTimeRef : option Z;
  timeoutRef : option nat;
  (* variables of the WebSocket effect *)
  reconnectAttempts : nat;
  accumulatedResponse : str;
  isDateQuery : bool;
  (* the browser: storage key [conversationHistory], sockets created, frames
     sent, pending timers, timer ids handed out, [Math.random] calls made *)
  localStorage : option (list Conversation);
  sockets : list Socket;
  outbox : list (nat * Outbound);
  timers : list Timer;
  nextTimer : nat;
  randomCalls : nat
}.

(** Field updates. *)
Definition set_messages (v : list Message) (s : State) : State :=
  Build_State v (input s) (history s) (currentConversationId s)
    (isSidebarOpen s) (wsRef s) (lastChunkTimeRef s) (timeoutRef s)
    (reconnectAttempts s) (accumulatedResponse s) (isDateQuery s)
    (localStorage s) (sockets s) (outbox s) (timers s) (nextTimer s)
    (randomCalls s).
Definition set_input (v : str) (s : State) : State :=
  Build_State (messages s) v (history s) (currentConversationId s)
    (isSidebarOpen s) (wsRef s) (lastChunkTimeRef s) (timeoutRef s)
    (reconnectAttempts s) (accumulatedResponse s) (isDateQuery s)
    (localStorage s) (sockets s) (outbox s) (timers s) (nextTimer s)
    (randomCalls s).
Definition set_history (v : list Conversation) (s : State) : State :=
  Build_State (messages s) (input s) v (currentConversationId s)
    (isSidebarOpen s) (wsRef s) (lastChunkTimeRef s) (timeoutRef s)
    (reconnectAttempts s) (accumulatedResponse s) (isDateQuery s)
    (localStorage s) (sockets s) (outbox s) (timers s) (nextTimer s)
    (randomCalls s).
Definition set_currentConversationId (v : option str) (s : State) : State :=
  Build_State (messages s) (input s) (history s) v (isSidebarOpen s) (wsRef
    s) (lastChunkTimeRef s) (timeoutRef s) (reconnectAttempts s)
    (accumulatedResponse s) (isDateQuery s) (localStorage s) (sockets s)
    (outbox s) (timers s) (nextTimer s) (randomCalls s).
Definition set_isSidebarOpen (v : bool) (s : State) : State :=
  Build_State (messages s) (input s) (history s) (currentConversationId s) v
    (wsRef s) (lastChunkTimeRef s) (timeoutRef s) (reconnectAttempts s)
    (accumulatedResponse s) (isDateQuery s) (localStorage s) (sockets s)
    (outbox s) (timers s) (nextTimer s) (randomCalls s).
Definition set_wsRef (v : option nat) (s : State) : State :=
  Build_State (messages s) (input s) (history s) (currentConversationId s)
    (isSidebarOpen s) v (lastChunkTimeRef s) (timeoutRef s)
    (reconnectAttempts s) (accumulatedResponse s) (isDateQuery s)
    (localStorage s) (sockets s) (outbox s) (timers s) (nextTimer s)
    (randomCalls s).
Definition set_lastChunkTimeRef (v : option Z) (s : State) : State :=
  Build_State (messages s) (input s) (history s) (currentConversationId s)
    (isSidebarOpen s) (wsRef s) v (timeoutRef s) (reconnectAttempts s)
    (accumulatedResponse s) (isDateQuery s) (localStorage s) (sockets s)
    (outbox s) (timers s) (nextTimer s) (randomCalls s).
Definition set_timeoutRef (v : option nat) (s : State) : State :=
  Build_State (messages s) (input s) (history s) (currentConversationId s)
    (isSidebarOpen s) (wsRef s) (lastChunkTimeRef s) v (reconnectAttempts s)
    (accumulatedResponse s) (isDateQuery s) (localStorage s) (sockets s)
    (outbox s) (timers s) (nextTimer s) (randomCalls s).
Definition set_reconnectAttempts (v : nat) (s : State) : State :=
  Build_State (messages s) (input s) (history s) (currentConversationId s)
    (isSidebarOpen s) (wsRef s) (lastChunkTimeRef s) (timeoutRef s) v
    (accumulatedResponse s) (isDateQuery s) (localStorage s) (sockets s)
    (outbox s) (timers s) (nextTimer s) (randomCalls s).
Definition set_accumulatedResponse (v : str) (s : State) : State :=
  Build_State (messages s) (input s) (history s) (currentConversationId s)
    (isSidebarOpen s) (wsRef s) (lastChunkTimeRef s) (timeoutRef s)
    (reconnectAttempts s) v (isDateQuery s) (localStorage s) (sockets s)
    (outbox s) (timers s) (nextTimer s) (randomCalls s).
Definition set_isDateQuery (v : bool) (s : State) : State :=
  Build_State (messages s) (input s) (history s) (currentConversationId s)
    (isSidebarOpen s) (wsRef s) (lastChunkTimeRef s) (timeoutRef s)
    (reconnectAttempts s) (accumulatedResponse s) v (localStorage s)
    (sockets s) (outbox s) (timers s) (nextTimer s) (randomCalls s).
Definition set_localStorage (v : option (list Conversation)) (s : State) : State :=
  Build_State (messages s) (input s) (history s) (currentConversationId s)
    (isSidebarOpen s) (wsRef s) (lastChunkTimeRef s) (timeoutRef s)
    (reconnectAttempts s) (accumulatedResponse s) (isDateQuery s) v (sockets
    s) (outbox s) (timers s) (nextTimer s) (randomCalls s).
Definition set_sockets (v : list Socket) (s : State) : State :=
  Build_State (messages s) (input s) (history s) (currentConversationId s)
    (isSidebarOpen s) (wsRef s) (lastChunkTimeRef s) (timeoutRef s)
    (reconnectAttempts s) (accumulatedResponse s) (isDateQuery s)
    (localStorage s) v (outbox s) (timers s) (nextTimer s) (randomCalls s).
Definition set_outbox (v : list (nat * Outbound)) (s : State) : State :=
  Build_State (messages s) (input s) (history s) (currentConversationId s)
    (isSidebarOpen s) (wsRef s) (lastChunkTimeRef s) (timeoutRef s)
    (reconnectAttempts s) (accumulatedResponse s) (isDateQuery s)
    (localStorage s) (sockets s) v (timers s) (nextTimer s) (randomCalls s).
Definition set_timers (v : list Timer) (s : State) : State :=
  Build_State (messages s) (input s) (history s) (currentConversationId s)
    (isSidebarOpen s) (wsRef s) (lastChunkTimeRef s) (timeoutRef s)
    (reconnectAttempts s) (accumulatedResponse s) (isDateQuery s)
    (localStorage s) (sockets s) (outbox s) v (nextTimer s) (randomCalls s).
Definition set_nextTimer (v : nat) (s : State) : State :=
  Build_State (messages s) (input s) (history s) (currentConversationId s)
    (isSidebarOpen s) (wsRef s) (lastChunkTimeRef s) (timeoutRef s)
    (reconnectAttempts s) (accumulatedResponse s) (isDateQuery s)
    (localStorage s) (sockets s) (outbox s) (timers s) v (randomCalls s).
Definition set_randomCalls (v : nat) (s : State) : State :=
  Build_State (messages s) (input s) (history s) (currentConversationId s)
    (isSidebarOpen s) (wsRef s) (lastChunkTimeRef s) (timeoutRef s)
    (reconnectAttempts s) (accumulatedResponse s) (isDateQuery s)
    (localStorage s) (sockets s) (outbox s) (timers s) (nextTimer s) v.

(** ** Timers and sockets *)

Local Open Scope Z_scope.

(** [setTimeout(callback, delay)]: the callback is named by its [kind]. *)
Definition setTimeout (k : TimerKind) (delay now : Z) (s : State)
  : nat * State :=
  let i := nextTimer s in
  (i, set_nextTimer (S i)
        (set_timers (timers s ++ [{| timer_id := i; kind := k;
                                     due := now + delay |}]) s)).

Definition clearTimeout (i : nat) (s : State) : State :=
  set_timers (filter (fun t => negb (timer_id t =? i)%nat) (timers s)) s.

(** [if (timeoutRef.current) clearTimeout(timeoutRef.current)] *)
Definition clearIdleTimeout (s : State) : State :=
  match timeoutRef s with
  | Some i => clearTimeout i s
  | None => s
  end.

Definition pending (i : nat) (s : State) : option Timer :=
  find (fun t => (timer_id t =? i)%nat) (timers s).

Fixpoint update_nth {A} (n : nat) (f : A -> A) (l : list A) : list A :=
  match l, n with
  | [], _ => []
  | x :: l', O => f x :: l'
  | x :: l', S n' => x :: update_nth n' f l'
  end.

Definition set_readyState (i : nat) (r : ReadyState) (s : State) : State :=
  set_sockets
    (update_nth i (fun k => {| readyState := r; closeCalled := closeCalled k |})
       (sockets s)) s.

(** [ws.close()] called by the page. *)
Definition ws_close (i : nat) (s : State) : State :=
  set_sockets
    (update_nth i
       (fun k => {| readyState := match readyState k with
                                  | CONNECTING | OPEN => CLOSING
                                  | r => r
                                  end;
                    closeCalled := true |})
       (sockets s)) s.

(** [connectWebSocket()]: a new socket, stored in [wsRef.current]. *)
Definition connectWebSocket (s : State) : State :=
  let i := length (sockets s) in
  set_wsRef (Some i)
    (set_sockets (sockets s ++ [{| readyState := CONNECTING;
                                   closeCalled := false |}]) s).

(** ** Stream accumulator *)

Definition lastMessageOf (prevMessages : list Message) : option Message :=
  nth_error prevMessages (length prevMessages - 1).

(** The updater that [displayResponse] passes to [setMessages]. *)
Definition finalize (formatted : str) (now : Z) (prevMessages : list Message)
  : list Message :=
  let lastMessageIndex := (length prevMessages - 1)%nat in
  let appended :=
    prevMessages ++ [{| role := assistant; content := formatted;
                        timestamp := now; isStreaming := Some false |}] in
  match lastMessageOf prevMessages with
  | Some lastMessage =>
      if Role_eq_dec (role lastMessage) assistant then
        firstn lastMessageIndex prevMessages
          ++ [{| role := role lastMessage; content := formatted;
                 timestamp := timestamp lastMessage;
                 isStreaming := Some false |}]
      else appended
  | None => appended
  end.

Definition displayResponse (h : Host) (now : Z) (s : State) : State :=
  if negb (nonempty (accumulatedResponse s)) then s
  else
    let formatted := formatResponse h (isDateQuery s) (randomCalls s)
                       (accumulatedResponse s) in
    let draws := formatDraws h (isDateQuery s) (accumulatedResponse s) in
    set_lastChunkTimeRef None
      (set_isDateQuery false
         (set_accumulatedResponse []
            (set_randomCalls (randomCalls s + draws)%nat
               (set_messages (finalize formatted now (messages s)) s)))).

(** The callback of the idle timer armed by [ws.onmessage]. *)
Definition idleTimeout (h : Host) (now : Z) (s : State) : State :=
  match lastChunkTimeRef s with
  | Some t =>
      if negb (t =? 0) && (now - t >=? 1000) then displayResponse h now s
      else s
  | None => s
  end.

(** ** Connection manager *)

Definition maxReconnectAttempts : nat := 5.
Definition reconnectInterval : Z := 3000.

Definition ws_onopen (s : State) : State :=
  set_lastChunkTimeRef None
    (set_isDateQuery false
       (set_accumulatedResponse [] (set_reconnectAttempts 0%nat s))).

(** The value that [ws.onmessage] ors into [isDateQuery]. *)
Definition dateHint (payload : str) : bool :=
  includes (L "date") (toLowerCase payload)
  || match exec no_flags re_date payload with Some _ => true | None => false end.

Definition errorMessage (payload : str) (now : Z) : Message :=
  {| role := assistant; content := L "Error: " ++ payload; timestamp := now;
     isStreaming := Some false |}.

(** [ws.onmessage]; [data] is [None] when [JSON.parse] throws, which the
    handler catches and logs. *)
Definition ws_onmessage (h : Host) (now : Z) (data : option Envelope)
  (s : State) : State :=
  match data with
  | None => s
  | Some data =>
      if str_eqb (type data) (L "ai_chunk") then
        let s := set_accumulatedResponse
                   (accumulatedResponse s ++ payload data) s in
        let s := set_isDateQuery (isDateQuery s || dateHint (payload data)) s in
        let s := set_lastChunkTimeRef (Some now) s in
        let s := clearIdleTimeout s in
        let (i, s) := setTimeout IdleFlush 1000 now s in
        set_timeoutRef (Some i) s
      else if str_eqb (type data) (L "error") then
        set_messages (messages s ++ [errorMessage (payload data) now]) s
      else if str_eqb (type data) (L "model_connected") then s
      else if str_eqb (type data) (L "stream_end") then
        displayResponse h now (clearIdleTimeout s)
      else s
  end.

(** [ws.onerror]: [setMessages((prev) => [...prev])]. *)
Definition ws_onerror (s : State) : State :=
  set_messages (messages s) s.

Definition unreachableNotice (now : Z) : Message :=
  {| role := assistant;
     content := L "Unable to reconnect to the server. Please refresh the page.";
     timestamp := now; isStreaming := Some false |}.

Definition ws_onclose (now : Z) (s : State) : State :=
  if (reconnectAttempts s <? maxReconnectAttempts)%nat then
    snd (setTimeout Reconnect reconnectInterval now s)
  else set_messages (messages s ++ [unreachableNotice now]) s.

(** The callback of the timer armed by [ws.onclose]. *)
Definition reconnect (s : State) : State :=
  connectWebSocket (set_reconnectAttempts (S (reconnectAttempts s)) s).

(** The cleanup of the WebSocket effect. *)
Definition cleanup (s : State) : State :=
  let s := match wsRef s with
           | Some i => ws_close i s
           | None => s
           end in
  clearIdleTimeout s.

(** ** Conversation store and the handlers of the page *)

(** How a handler ends: a normal return or an uncaught exception.  State
    updates made before the exception stay. *)
Inductive Outcome := Returned | Threw (name : str).

Definition Handler := State -> Outcome * State.

Definition andThen (m k : Handler) : Handler :=
  fun s => match m s with
           | (Returned, s') => k s'
           | (Threw e, s') => (Threw e, s')
           end.

Definition update (f : State -> State) : Handler := fun s => (Returned, f s).

Notation "m ;; k" := (andThen m k) (at level 61, right associativity).

(** [wsRef.current.send(frame)]: throws on a socket that is still
    connecting, transmits on an open one, and drops the frame on a closing or
    closed one. *)
Definition ws_send (frame : Outbound) : Handler :=
  fun s =>
    match wsRef s with
    | Some i =>
        match option_map readyState (nth_error (sockets s) i) with
        | Some CONNECTING => (Threw (L "InvalidStateError"), s)
        | Some OPEN => (Returned, set_outbox (outbox s ++ [(i, frame)]) s)
        | _ => (Returned, s)
        end
    | None => (Threw (L "TypeError"), s)
    end.

(** The greeting; its emoji stands as its UTF-8 bytes, and nothing measures
    the greeting. *)
Definition greeting (now : Z) : Message :=
  {| role := assistant; content := L "Hi there! 😊 How can I help you today?";
     timestamp := now; isStreaming := None |}.

(** Truthiness of [currentConversationId]: [null] and the empty string are
    falsy. *)
Definition activeId (s : State) : option str :=
  match currentConversationId s with
  | Some (c :: i) => Some (c :: i)
  | _ => None
  end.

Definition userMessageOf (input : str) (now : Z) : Message :=
  {| role := user; content := input; timestamp := now; isStreaming := None |}.

Definition placeholder (now : Z) : Message :=
  {| role := assistant; content := []; timestamp := now;
     isStreaming := Some true |}.

Definition snippetOf (input : str) : str :=
  slice input 0 30 ++ (if (30 <? length input)%nat then L "..." else []).

(** The [updatedHistory] of [handleSend]. *)
Definition updatedHistoryOf (s : State) (newMessages : list Message) (now : Z)
  : list Conversation :=
  match activeId s with
  | Some cid =>
      map (fun conv =>
             if str_eqb (id conv) cid
             then {| id := id conv; conv_messages := newMessages;
                     snippet := snippet conv;
                     conv_timestamp := conv_timestamp conv |}
             else conv)
          (history s)
  | None =>
      history s ++ [{| id := toString now; conv_messages := newMessages;
                       snippet := snippetOf (input s);
                       conv_timestamp := now |}]
  end.

(** [handleSend].  [messages], [input], [history] and
    [currentConversationId] are the values of the render the handler closes
    over: the state setters do not change what it reads. *)
Definition handleSend (now : Z) : Handler :=
  fun s0 =>
    if negb (nonempty (trim (input s0)))
       || match wsRef s0 with Some _ => false | None => true end
    then (Returned, s0)
    else
      let newMessages :=
        messages s0 ++ [userMessageOf (input s0) now; placeholder now] in
      let updatedHistory := updatedHistoryOf s0 newMessages now in
      (update (set_messages newMessages) ;;
       ws_send (user_message (input s0) (L "openai")) ;;
       update (set_input []) ;;
       update (fun s =>
                 match activeId s0 with
                 | Some _ => s
                 | None => set_currentConversationId (Some (toString now)) s
                 end) ;;
       update (set_history updatedHistory) ;;
       update (set_localStorage (Some updatedHistory))) s0.

Definition handleLoadConversation (conversationId : str) : Handler :=
  fun s0 =>
    ((match find (fun conv => str_eqb (id conv) conversationId) (history s0) with
      | Some conversation =>
          update (set_messages (conv_messages conversation)) ;;
          update (set_currentConversationId (Some conversationId)) ;;
          match wsRef s0 with
          | Some _ => ws_send (load_chat conversationId)
          | None => update (fun s => s)
          end
      | None => update (fun s => s)
      end) ;;
     update (set_isSidebarOpen false)) s0.

Definition handleNewConversation (now : Z) : Handler :=
  fun s0 =>
    (update (set_messages [greeting now]) ;;
     update (set_currentConversationId None) ;;
     update (set_input []) ;;
     update (set_isSidebarOpen false) ;;
     match wsRef s0 with
     | Some _ => ws_send start_chat
     | None => update (fun s => s)
     end) s0.

(** ** The page as a transition system *)

Inductive Event :=
| SocketOpen (ws : nat)
| SocketMessage (ws : nat) (data : option Envelope)
| SocketError (ws : nat)
| SocketClose (ws : nat)
| TimerFires (i : nat)
| Typed (text : str)
| Send
| Load (conversationId : str)
| New
| Unmount.

(** A timer fires once, not before it is due, and not after it was
    cleared. *)
Definition fire (h : Host) (now : Z) (i : nat) (s : State) : State :=
  match pending i s with
  | Some t =>
      if due t <=? now then
        let s := clearTimeout i s in
        match kind t with
        | IdleFlush => idleTimeout h now s
        | Reconnect => reconnect s
        end
      else s
  | None => s
  end.

Definition step (h : Host) (now : Z) (ev : Event) (s : State) : State :=
  match ev with
  | SocketOpen ws => ws_onopen (set_readyState ws OPEN s)
  | SocketMessage _ data => ws_onmessage h now data s
  | SocketError _ => ws_onerror s
  | SocketClose ws => ws_onclose now (set_readyState ws CLOSED s)
  | TimerFires i => fire h now i s
  | Typed text => set_input text s
  | Send => snd (handleSend now s)
  | Load conversationId => snd (handleLoadConversation conversationId s)
  | New => snd (handleNewConversation now s)
  | Unmount => cleanup s
  end.

(** A run of the page over time-stamped events. *)
Fixpoint run_events (h : Host) (evs : list (Z * Event)) (s : State) : State :=
  match evs with
  | [] => s
  | (now, ev) :: evs' => run_events h evs' (step h now ev s)
  end.

(** The state after the mount effects: the stored history is read, a new
    conversation is started (there is no socket yet) and the socket is
    created. *)
Definition mount (now : Z) (stored : option (list Conversation)) : State :=
  let s := {| messages := [greeting now]; input := []; history := [];
              currentConversationId := None; isSidebarOpen := false;
              wsRef := None; lastChunkTimeRef := None; timeoutRef := None;
              reconnectAttempts := 0; accumulatedResponse := [];
              isDateQuery := false; localStorage := stored; sockets := [];
              outbox := []; timers := []; nextTimer := 1; randomCalls := 0 |} in
  let s := set_history (match stored with Some l => l | None => [] end) s in
  let s := snd (handleNewConversation now s) in
  connectWebSocket s.

(** ** Vocabulary of the properties *)

Definition finalizedMessage (formatted : str) (t : Z) : Message :=
  {| role := assistant; content := formatted; timestamp := t;
     isStreaming := Some false |}.

(** Every pending idle timer is the one [timeoutRef.current] names. *)
Definition idle_tracked (s : State) : Prop :=
  forall t, In t (timers s) -> kind t = IdleFlush ->
            timeoutRef s = Some (timer_id t).

Definition no_idle_timer (s : State) : Prop :=
  forall t, In t (timers s) -> kind t <> IdleFlush.

Definition idleTimer (i : nat) (now : Z) : Timer :=
  {| timer_id := i; kind := IdleFlush; due := now + 1000 |}.

Definition stream_end (p : str) : option Envelope :=
  Some {| type := L "stream_end"; payload := p |}.

(** Timer identifiers are handed out in increasing order. *)
Definition timers_fresh (s : State) : Prop :=
  forall t, In t (timers s) -> (timer_id t < nextTimer s)%nat.

Definition chunk (p : str) : option Envelope :=
  Some {| type := L "ai_chunk"; payload := p |}.

(** The arrival of fragments, each with its arrival time, on socket [ws]. *)
Definition deliver (ws : nat) (frags : list (Z * str)) : list (Z * Event) :=
  map (fun f => (fst f, SocketMessage ws (chunk (snd f)))) frags.

(** Events that try to flush: a timer firing or an end signal. *)
Definition flush_attempt (ev : Event) : Prop :=
  (exists i, ev = TimerFires i)
  \/ (exists ws p, ev = SocketMessage ws (stream_end p)).

(** A matcher that calls its continuation only on what is left of its
    input. *)
Definition reads_forward (m : str -> captures -> cont -> option result) : Prop :=
  forall s caps (k1 k2 : cont),
    (forall s1 c1, (length s1 <= length s)%nat -> k1 s1 c1 = k2 s1 c1) ->
    m s caps k1 = m s caps k2.

(** The states the page can be in: after the mount, any events. *)
Definition reachable (h : Host) (s : State) : Prop :=
  exists now stored evs, s = run_events h evs (mount now stored).

(** Case analysis on an innermost scrutinee of the goal. *)
Ltac break_match :=
  match goal with
  | |- context [match ?x with _ => _ end] =>
      lazymatch x with
      | context [match _ with _ => _ end] => fail
      | _ => destruct x eqn:?
      end
  end.

Ltac handler_cases :=
  repeat (break_match; cbn -[formatResponse formatDraws finalize Z.add] in *; auto).

Definition envelope (t p : str) : option Envelope :=
  Some {| type := t; payload := p |}.

Definition findConversation (conversationId : str) (s : State)
  : option Conversation :=
  find (fun conv => str_eqb (id conv) conversationId) (history s).

Definition reconnectTimer (i : nat) (now : Z) : Timer :=
  {| timer_id := i; kind := Reconnect; due := now + reconnectInterval |}.

Definition newSocket : Socket :=
  {| readyState := CONNECTING; closeCalled := false |}.

Definition currentSocket (s : State) : nat :=
  match wsRef s with Some i => i | None => 0%nat end.

(** [n] connection failures in a row: the current socket closes, and the
    timer armed by that close fires when it is due and opens the next
    socket, which closes in turn. *)
Fixpoint failedAttempts (h : Host) (n : nat) (now : Z) (s : State) : State :=
  match n with
  | O => s
  | S n' =>
      let closed := step h now (SocketClose (currentSocket s)) s in
      let retried :=
        step h (now + reconnectInterval) (TimerFires (nextTimer s)) closed in
      failedAttempts h n' (now + reconnectInterval) retried
  end.

Definition no_reconnect_timer (s : State) : Prop :=
  forall t, In t (timers s) -> kind t <> Reconnect.

(** Any event but the opening of a socket. *)
Definition not_open (ev : Event) : Prop :=
  match ev with SocketOpen _ => False | _ => True end.

(** The state in which the page has given up: the attempts are used up and
    no reconnection timer is pending. *)
Definition given_up (s : State) : Prop :=
  (maxReconnectAttempts <= reconnectAttempts s)%nat /\ no_reconnect_timer s.

Definition fence : str := [BQ; BQ; BQ].

(** A fenced block with language label [lang] and body [body]. *)
Definition fenced (lang body : str) : str :=
  fence ++ lang ++ [NL] ++ body ++ fence.

(** The first fence in [p] followed by a fence is the one that follows:
    no three backquotes in a row begin inside [p]. *)
Definition fence_free_before (p : str) : bool :=
  match find_from fence (p ++ fence) with
  | Some n => (n =? length p)%nat
  | None => false
  end.

(** No fence occurs in [p]. *)
Definition no_fence (p : str) : bool :=
  match find_from fence p with
  | Some _ => false
  | None => true
  end.

Definition all_word (s : str) : bool := forallb is_word s.

(** Prose before a block, and after the last block, as [formatResponse]
    adds it to its result. *)
Definition proseBefore (p : str) : str :=
  let beforeText := trim (cleanResponse p) in
  if nonempty beforeText then beforeText ++ L "<br><br>" else [].

Definition proseAfter (p : str) : str :=
  let afterText := trim (cleanResponse p) in
  if nonempty afterText then L "<br><br>" ++ afterText else [].

Definition codeIdOf (h : Host) (n : nat) : str := L "code-" ++ random36 h n.






(** ** Sample runs *)

(** A host on UTC whose [Date.parse] knows the ISO format only and whose
    random source yields [000000000], [000000001], ... *)
Definition utcHost : Host :=
  {| localTZA := fun _ => 0;
     parseFallback := fun _ => None;
     random36 := fun n => padStart0 9 (toString (Z.of_nat n)) |}.

(** The same host five hours west of UTC. *)
Definition westHost : Host :=
  {| localTZA := fun _ => -18000000;
     parseFallback := parseFallback utcHost;
     random36 := random36 utcHost |}.

(** The page once its first socket is open. *)
Definition opened : State :=
  run_events utcHost [(10, SocketOpen 0%nat)] (mount 0 None).

(** The user has typed and sent a message. *)
Definition sent : State :=
  run_events utcHost [(20, Typed (L "hi")); (30, Send)] opened.

(** Two fragments of the answer have arrived. *)
Definition streaming : State :=
  run_events utcHost (deliver 0 [(40, L "Hel"); (50, L "lo")]) sent.


(** ** Vocabulary of the further properties *)

(** [s1] is what is left of [s] after some prefix. *)
Definition suffix_of (s1 s : str) : Prop := exists pre, s = pre ++ s1.

(** A matcher that succeeds only through its continuation, called on a
    suffix of its input. *)
Definition succeeds_through (m : str -> captures -> cont -> option result)
  : Prop :=
  forall s caps (k : cont) z,
    m s caps k = Some z ->
    exists s1 c1, suffix_of s1 s /\ k s1 c1 = Some z.

(** [a] is [b] with some characters left out. *)
Inductive Subseq : str -> str -> Prop :=
| Subseq_nil : Subseq [] []
| Subseq_keep c a b : Subseq a b -> Subseq (c :: a) (c :: b)
| Subseq_drop c a b : Subseq a b -> Subseq a (c :: b).

Definition starts_clean (s : str) : Prop :=
  match s with
  | c :: _ => is_space c = false
  | [] => True
  end.

(** At most one fence occurs in [text]: after the first one, none. *)
Definition at_most_one_fence (text : str) : bool :=
  match find_from fence text with
  | None => true
  | Some n => no_fence (skipn (n + 3) text)
  end.

(** A piece of a text: prose, then a fenced block with a label and a body. *)
Definition Piece := (str * str * str)%type.

Fixpoint textOf (pieces : list Piece) (last : str) : str :=
  match pieces with
  | [] => last
  | (p, lang, body) :: rest => p ++ fenced lang body ++ textOf rest last
  end.

Definition langOf (lang : str) : str :=
  if nonempty lang then lang else L "text".

(** The rendering of the pieces, the first block taking identifier number
    [drawn]. *)
Fixpoint rendered (h : Host) (drawn : nat) (pieces : list Piece) (last : str)
  : str :=
  match pieces with
  | [] => proseAfter last
  | (p, lang, body) :: rest =>
      proseBefore p
      ++ codeBlockHtml (langOf lang) (trim body) (codeIdOf h drawn)
      ++ rendered h (S drawn) rest last
  end.

Definition well_fenced (x : Piece) : bool :=
  let '(p, lang, body) := x in
  fence_free_before p && all_word lang && fence_free_before body.

Definition matchOf (x : Piece) : str * captures :=
  let '(p, lang, body) := x in
  (fenced lang body, [(2%nat, body); (1%nat, lang)]).

(** The date of [civil_from_days (days_from_civil y m d)] is [y]-[m]-[d]. *)
Definition roundtrip_ok (y m d : Z) : bool :=
  let '(y', m', d') := JSDate.civil_from_days (JSDate.days_from_civil y m d) in
  (y =? y') && (m =? m') && (d =? d').

Definition month_ok (y m : Z) : bool :=
  forallb (fun d => (JSDate.days_in_month y m <? Z.of_nat d)
                    || roundtrip_ok y m (Z.of_nat d))
          (seq 1 31).

Definition year_ok (y : Z) : bool :=
  forallb (fun m => month_ok y (Z.of_nat m)) (seq 1 12).

Definition valid_date (y m d : Z) : Prop :=
  1 <= m <= 12 /\ 1 <= d <= JSDate.days_in_month y m.

(** What the date branch prints for day [dd], month [mm], year [yy]. *)
Definition todaysDate (dd mm yy : Z) : str :=
  L "Today's date is " ++ padStart0 2 (toString dd) ++ L "/"
  ++ padStart0 2 (toString mm) ++ L "/" ++ toString yy.

Definition is_idle (t : Timer) : bool :=
  match kind t with IdleFlush => true | Reconnect => false end.

(** Events that come from the sockets and the timers. *)
Definition from_network (ev : Event) : Prop :=
  match ev with
  | SocketOpen _ | SocketMessage _ _ | SocketError _ | SocketClose _
  | TimerFires _ => True
  | _ => False
  end.

(** The three things such an event can do to the message list. *)
Definition touched (ms ms' : list Message) : Prop :=
  ms' = ms
  \/ (exists x, ms' = ms ++ [x])
  \/ (exists formatted t, ms' = finalize formatted t ms).

(** The socket that [wsRef.current] names is still connecting. *)
Definition connecting (s : State) : Prop :=
  exists i, wsRef s = Some i
            /\ option_map readyState (nth_error (sockets s) i) = Some CONNECTING.

(** [wsRef.current] names a socket that is not connecting any more. *)
Definition connected_once (s : State) : Prop :=
  exists i, wsRef s = Some i
            /\ option_map readyState (nth_error (sockets s) i) <> Some CONNECTING.

Definition socket_open (s : State) : bool :=
  match wsRef s with
  | Some i =>
      match option_map readyState (nth_error (sockets s) i) with
      | Some OPEN => true
      | _ => false
      end
  | None => false
  end.

Definition newMessagesOf (s : State) (now : Z) : list Message :=
  messages s ++ [userMessageOf (input s) now; placeholder now].

(** The frame [handleSend] transmits. *)
Definition sentFrame (s : State) : list (nat * Outbound) :=
  match wsRef s with
  | Some i => [(i, user_message (input s) (L "openai"))]
  | None => []
  end.

(** The entries of the side bar: [userQueries]. *)
Record UserQuery := {
  uq_id : str;
  query : str;
  uq_timestamp : Z
}.

Definition queryOf (conv : Conversation) : str :=
  match find (fun msg => if Role_eq_dec (role msg) user then true else false)
             (conv_messages conv) with
  | Some msg => if nonempty (content msg) then content msg else L "Untitled"
  | None => L "Untitled"
  end.

Definition userQueries (s : State) : list UserQuery :=
  map (fun conv => {| uq_id := id conv; query := queryOf conv;
                      uq_timestamp := conv_timestamp conv |})
      (history s).

(** The identifier under which a send files its messages. *)
Definition filedUnder (s : State) (now : Z) : str :=
  match activeId s with
  | Some cid => cid
  | None => toString now
  end.

Definition withMessages (ms : list Message) (conv : Conversation)
  : Conversation :=
  {| id := id conv; conv_messages := ms; snippet := snippet conv;
     conv_timestamp := conv_timestamp conv |}.

(** The parts of the state that the store owns. *)
Definition storeOf (s : State)
  : list Conversation * option (list Conversation) * option str :=
  (history s, localStorage s, currentConversationId s).

(** In memory and on storage the list of conversations is the same, and
    the active-conversation pointer names one of them. *)
Definition store_consistent (s : State) : Prop :=
  history s = match localStorage s with Some l => l | None => [] end
  /\ (forall cid, currentConversationId s = Some cid ->
        findConversation cid s <> None).

(** A block that is opened and not closed. *)
Definition unterminated : str :=
  L "Run this: " ++ fence ++ L "python" ++ [NL] ++ L "print(1)".

(** Three pieces: labelled, unlabelled, labelled. *)
Definition threePieces : list Piece :=
  [(L "First:" ++ [NL], L "python", L "print(1)" ++ [NL]);
   ([NL] ++ L "second:" ++ [NL], [], L "ls -l" ++ [NL]);
   ([NL], L "js", L "let x = " ++ [BQ] ++ L "y" ++ [BQ] ++ [NL])].

(** * Properties *)

Lemma str_eqb_eq a b : str_eqb a b = true <-> a = b.
Proof.
  unfold str_eqb. destruct (list_eq_dec ascii_dec a b); split; congruence.
Qed.

(** ** The matcher: the fuel of a repetition is never exhausted *)

Lemma repeat_matcher_ext m g :
  reads_forward m ->
  forall fuel min max s caps (k1 k2 : cont),
    (forall s1 c1, (length s1 <= length s)%nat -> k1 s1 c1 = k2 s1 c1) ->
    repeat_matcher m g k1 fuel min max s caps
    = repeat_matcher m g k2 fuel min max s caps.
Proof.
  intros Hm. induction fuel as [|fuel IH]; intros min max s caps k1 k2 K;
    cbn [repeat_matcher]; [reflexivity|].
  destruct (max_is_zero max); [now apply K|].
  set (d1 := fun (s1 : str) (c1 : captures) =>
               if (min =? 0)%nat && (length s1 =? length s)%nat then None
               else repeat_matcher m g k1 fuel (pred min) (pred_max max) s1 c1).
  set (d2 := fun (s1 : str) (c1 : captures) =>
               if (min =? 0)%nat && (length s1 =? length s)%nat then None
               else repeat_matcher m g k2 fuel (pred min) (pred_max max) s1 c1).
  assert (D : forall s1 c1, (length s1 <= length s)%nat -> d1 s1 c1 = d2 s1 c1).
  { intros s1 c1 L1. unfold d1, d2. destruct (_ && _); [reflexivity|].
    apply IH. intros s2 c2 L2. apply K. lia. }
  rewrite (Hm s caps d1 d2 D), (K s caps (le_n _)). reflexivity.
Qed.

Lemma run_reads_forward fl r : reads_forward (run fl r).
Proof.
  induction r as [c| | | | | |r1 IH1 r2 IH2|r1 IH1 r2 IH2|min max g r1 IH1
                 |i r1 IH1|r1 IH1| |];
    intros s caps k1 k2 K; cbn [run].
  1-6: destruct s as [|a s]; cbn [one_char]; [reflexivity|];
       destruct (char_matches _ _ _); [apply K; cbn; lia | reflexivity].
  - apply IH1. intros s1 c1 L1. apply IH2. intros s2 c2 L2. apply K. lia.
  - now rewrite (IH1 s caps k1 k2 K), (IH2 s caps k1 k2 K).
  - now apply repeat_matcher_ext.
  - apply IH1. intros s1 c1 L1. now apply K.
  - destruct (run fl r1 s caps _) as [[? c1]|]; [now apply K | reflexivity].
  - destruct s; [now apply K | reflexivity].
  - now apply K.
Qed.

(** More fuel than [min + length s] changes nothing. *)
Lemma repeat_matcher_fuel m g k :
  reads_forward m ->
  forall fuel1 fuel2 min max s caps,
    (min + length s < fuel1)%nat -> (min + length s < fuel2)%nat ->
    repeat_matcher m g k fuel1 min max s caps
    = repeat_matcher m g k fuel2 min max s caps.
Proof.
  intros Hm. induction fuel1 as [|fuel1 IH]; intros fuel2 min max s caps F1 F2;
    [lia|].
  destruct fuel2 as [|fuel2]; [lia|]. cbn [repeat_matcher].
  destruct (max_is_zero max); [reflexivity|].
  set (d1 := fun (s1 : str) (c1 : captures) =>
               if (min =? 0)%nat && (length s1 =? length s)%nat then None
               else repeat_matcher m g k fuel1 (pred min) (pred_max max) s1 c1).
  set (d2 := fun (s1 : str) (c1 : captures) =>
               if (min =? 0)%nat && (length s1 =? length s)%nat then None
               else repeat_matcher m g k fuel2 (pred min) (pred_max max) s1 c1).
  assert (D : forall s1 c1, (length s1 <= length s)%nat -> d1 s1 c1 = d2 s1 c1).
  { intros s1 c1 L1. unfold d1, d2.
    destruct (Nat.eqb_spec min 0) as [Z0|Nz];
      destruct (Nat.eqb_spec (length s1) (length s)) as [E|Ne];
      cbn [andb]; try reflexivity; apply IH; lia. }
  now rewrite (Hm s caps d1 d2 D).
Qed.

(** The repetition of [run] is the repeat matcher at any larger fuel: its
    result never comes from running out of fuel. *)
Theorem run_Rep_fuel fl min max g r s caps k fuel :
  (min + length s < fuel)%nat ->
  run fl (Rep min max g r) s caps k
  = repeat_matcher (run fl r) g k fuel min max s caps.
Proof.
  intros F. cbn [run].
  apply repeat_matcher_fuel; [apply run_reads_forward | lia | exact F].
Qed.

(** ** Flush: frame conditions of [displayResponse] *)

Lemma nonempty_false (s : str) : nonempty s = false <-> s = [].
Proof. destruct s; simpl; split; congruence. Qed.

Lemma nonempty_true (s : str) : nonempty s = true <-> s <> [].
Proof. destruct s; simpl; split; congruence. Qed.

Lemma displayResponse_empty h now s :
  accumulatedResponse s = [] -> displayResponse h now s = s.
Proof. intros E. unfold displayResponse. now rewrite E. Qed.

Lemma displayResponse_messages h now s :
  accumulatedResponse s <> [] ->
  messages (displayResponse h now s)
  = finalize (formatResponse h (isDateQuery s) (randomCalls s)
                (accumulatedResponse s)) now (messages s).
Proof.
  intros E. unfold displayResponse.
  apply nonempty_true in E. now rewrite E.
Qed.

Lemma displayResponse_clears h now s :
  accumulatedResponse (displayResponse h now s) = [].
Proof.
  unfold displayResponse.
  destruct (nonempty (accumulatedResponse s)) eqn:E; simpl; auto.
  now apply nonempty_false.
Qed.

Lemma lastMessageOf_snoc (l : list Message) (m : Message) :
  lastMessageOf (l ++ [m]) = Some m.
Proof.
  unfold lastMessageOf. rewrite length_app. simpl.
  replace (length l + 1 - 1)%nat with (length l) by lia.
  rewrite nth_error_app2 by lia. now rewrite Nat.sub_diag.
Qed.

Lemma lastMessageOf_split (l : list Message) (m : Message) :
  lastMessageOf l = Some m -> l = firstn (length l - 1) l ++ [m].
Proof.
  unfold lastMessageOf. intros E.
  destruct (nth_error_split _ _ E) as (l1 & l2 & -> & N).
  rewrite length_app in N. simpl in N.
  destruct l2 as [|y l2]; [|simpl in N; lia].
  rewrite length_app. simpl.
  replace (length l1 + 1 - 1)%nat with (length l1 + 0)%nat by lia.
  now rewrite firstn_app_2, app_nil_r.
Qed.

Lemma finalize_replaces formatted now (ms : list Message) (m : Message) :
  lastMessageOf ms = Some m -> role m = assistant ->
  finalize formatted now ms
  = firstn (length ms - 1) ms ++ [finalizedMessage formatted (timestamp m)].
Proof.
  intros E R. unfold finalize. rewrite E.
  destruct (Role_eq_dec (role m) assistant) as [_|N]; [|contradiction].
  unfold finalizedMessage. now rewrite R.
Qed.

Lemma finalize_appends formatted now (ms : list Message) :
  (forall m, lastMessageOf ms = Some m -> role m <> assistant) ->
  finalize formatted now ms = ms ++ [finalizedMessage formatted now].
Proof.
  intros N. unfold finalize.
  destruct (lastMessageOf ms) as [m|] eqn:E; auto.
  destruct (Role_eq_dec (role m) assistant) as [R|_]; auto.
  now elim (N m).
Qed.

(** C10.  A flush with a non-empty buffer touches the last message only.
    When the last message has role assistant, it alone is replaced: the list
    keeps its length, every earlier message is unchanged, and the last one
    carries the transformed text with [isStreaming = false], whatever its
    previous content and streaming flag were.  When there is no last message
    or its role is not assistant, a new assistant message is appended and the
    existing messages are unchanged.  In particular an error message that
    was surfaced last is overwritten by the next flush. *)
Theorem C10_flush_frame (h : Host) (now : Z) (s : State) :
  accumulatedResponse s <> [] ->
  let formatted := formatResponse h (isDateQuery s) (randomCalls s)
                     (accumulatedResponse s) in
  let ms := messages s in
  let ms' := messages (displayResponse h now s) in
  (forall m, lastMessageOf ms = Some m -> role m = assistant ->
     length ms' = length ms
     /\ (forall i, (i < length ms - 1)%nat -> nth_error ms' i = nth_error ms i)
     /\ lastMessageOf ms' = Some (finalizedMessage formatted (timestamp m)))
  /\ ((forall m, lastMessageOf ms = Some m -> role m <> assistant) ->
      ms' = ms ++ [finalizedMessage formatted now])
  /\ (forall t e,
        messages (displayResponse h now
                    (ws_onmessage h t (Some {| type := L "error"; payload := e |}) s))
        = ms ++ [finalizedMessage formatted t]).
Proof.
  intros NE formatted ms ms'.
  assert (Hms' : ms' = finalize formatted now ms)
    by (apply displayResponse_messages; exact NE).
  split; [|split].
  - intros m E R.
    rewrite Hms', (finalize_replaces _ _ _ E R).
    pose proof (lastMessageOf_split _ E) as Sp.
    assert (Len : (length ms = length (firstn (length ms - 1) ms) + 1)%nat).
    { rewrite Sp at 1. rewrite length_app. reflexivity. }
    split; [|split].
    + rewrite length_app. simpl. lia.
    + intros i Hi.
      rewrite nth_error_app1 by lia.
      rewrite nth_error_firstn.
      apply Nat.ltb_lt in Hi. now rewrite Hi.
    + apply lastMessageOf_snoc.
  - intros N. rewrite Hms'. now apply finalize_appends.
  - intros t e. unfold ws_onmessage.
    replace (str_eqb (type {| type := L "error"; payload := e |}) (L "ai_chunk"))
      with false by reflexivity.
    replace (str_eqb (type {| type := L "error"; payload := e |}) (L "error"))
      with true by reflexivity.
    rewrite displayResponse_messages by exact NE.
    cbn [messages set_messages accumulatedResponse isDateQuery randomCalls payload].
    rewrite (@finalize_replaces _ _ _ (errorMessage e t)
               (lastMessageOf_snoc _ _) eq_refl).
    rewrite length_app. simpl.
    replace (length (messages s) + 1 - 1)%nat with (length (messages s) + 0)%nat
      by lia.
    now rewrite firstn_app_2, app_nil_r.
Qed.

(** ** Reachable states *)

(** ** The idle timer *)

Lemma clearIdleTimeout_no_idle s :
  idle_tracked s -> no_idle_timer (clearIdleTimeout s).
Proof.
  intros I t Ht K. unfold clearIdleTimeout in Ht.
  destruct (timeoutRef s) as [i|] eqn:E.
  - cbn in Ht. apply filter_In in Ht. destruct Ht as [Ht F].
    specialize (I t Ht K). rewrite E in I. injection I as ->.
    now rewrite Nat.eqb_refl in F.
  - specialize (I t Ht K). congruence.
Qed.

Lemma displayResponse_timers h now s :
  timers (displayResponse h now s) = timers s
  /\ timeoutRef (displayResponse h now s) = timeoutRef s
  /\ nextTimer (displayResponse h now s) = nextTimer s.
Proof. unfold displayResponse. now destruct (negb _). Qed.

Lemma idleTimeout_timers h now s :
  timers (idleTimeout h now s) = timers s
  /\ timeoutRef (idleTimeout h now s) = timeoutRef s
  /\ nextTimer (idleTimeout h now s) = nextTimer s.
Proof.
  unfold idleTimeout. destruct (lastChunkTimeRef s); auto.
  destruct (_ && _); auto. apply displayResponse_timers.
Qed.

Lemma handlers_timers now cid s :
  let same s' := timers s' = timers s /\ timeoutRef s' = timeoutRef s
                 /\ nextTimer s' = nextTimer s in
  same (snd (handleSend now s))
  /\ same (snd (handleLoadConversation cid s))
  /\ same (snd (handleNewConversation now s)).
Proof.
  unfold handleSend, handleLoadConversation, handleNewConversation, andThen,
    update, ws_send.
  cbn. repeat split; handler_cases.
Qed.

(** What one [ai_chunk] envelope does. *)
Lemma ws_onmessage_chunk h now data s :
  type data = L "ai_chunk" ->
  let s' := ws_onmessage h now (Some data) s in
  accumulatedResponse s' = accumulatedResponse s ++ payload data
  /\ isDateQuery s' = (isDateQuery s || dateHint (payload data))
  /\ lastChunkTimeRef s' = Some now
  /\ timeoutRef s' = Some (nextTimer s)
  /\ timers s' = timers (clearIdleTimeout s) ++ [idleTimer (nextTimer s) now]
  /\ nextTimer s' = S (nextTimer s)
  /\ messages s' = messages s
  /\ randomCalls s' = randomCalls s.
Proof.
  intros E. unfold ws_onmessage. rewrite E.
  replace (str_eqb (L "ai_chunk") (L "ai_chunk")) with true by reflexivity.
  unfold clearIdleTimeout, setTimeout.
  cbn. destruct (timeoutRef s); cbn; repeat split.
Qed.

Lemma idle_tracked_mount now stored : idle_tracked (mount now stored).
Proof. intros t []. Qed.

Lemma idle_tracked_step h now ev s :
  idle_tracked s -> idle_tracked (step h now ev s).
Proof.
  intros I. destruct ev as [ws|ws data|ws|ws|i|text| |cid| |]; cbn [step].
  - exact I.
  - unfold ws_onmessage.
    destruct data as [data|]; auto.
    destruct (str_eqb (type data) (L "ai_chunk")) eqn:Ty.
    + apply str_eqb_eq in Ty.
      destruct (ws_onmessage_chunk h now data s Ty) as (_ & _ & _ & R & T & _).
      unfold ws_onmessage in R, T. rewrite Ty in R, T.
      replace (str_eqb (L "ai_chunk") (L "ai_chunk")) with true in R, T
        by reflexivity.
      intros t Ht K. rewrite R. rewrite T in Ht.
      apply in_app_or in Ht. destruct Ht as [Ht|[<-|[]]]; [|reflexivity].
      elim (clearIdleTimeout_no_idle I t Ht K).
    + destruct (str_eqb (type data) (L "error")); auto.
      destruct (str_eqb (type data) (L "model_connected")); auto.
      destruct (str_eqb (type data) (L "stream_end")); auto.
      pose proof (clearIdleTimeout_no_idle I) as N.
      destruct (displayResponse_timers h now (clearIdleTimeout s)) as (T & _).
      intros t Ht K. rewrite T in Ht. elim (N t Ht K).
  - exact I.
  - unfold ws_onclose.
    destruct (_ <? _)%nat; [|exact I].
    intros t Ht K. cbn in Ht.
    apply in_app_or in Ht. destruct Ht as [Ht|[<-|[]]]; [|discriminate].
    exact (I t Ht K).
  - unfold fire. destruct (pending i s) as [t0|]; [|exact I].
    destruct (due t0 <=? now); [|exact I].
    assert (I' : idle_tracked (clearTimeout i s)).
    { intros t Ht K. cbn in Ht. apply filter_In in Ht. exact (I t (proj1 Ht) K). }
    destruct (kind t0).
    + destruct (idleTimeout_timers h now (clearTimeout i s)) as (T & R & _).
      intros t Ht K. rewrite T in Ht. rewrite R. exact (I' t Ht K).
    + exact I'.
  - exact I.
  - destruct (handlers_timers now [] s) as ((T & R & _) & _).
    intros t Ht K. rewrite T in Ht. rewrite R. exact (I t Ht K).
  - destruct (handlers_timers now cid s) as (_ & (T & R & _) & _).
    intros t Ht K. rewrite T in Ht. rewrite R. exact (I t Ht K).
  - destruct (handlers_timers now [] s) as (_ & _ & (T & R & _)).
    intros t Ht K. rewrite T in Ht. rewrite R. exact (I t Ht K).
  - unfold cleanup.
    assert (I' : idle_tracked (match wsRef s with
                               | Some i => ws_close i s
                               | None => s
                               end)) by (destruct (wsRef s); exact I).
    intros t Ht K. elim (clearIdleTimeout_no_idle I' t Ht K).
Qed.

Lemma idle_tracked_run h evs s :
  idle_tracked s -> idle_tracked (run_events h evs s).
Proof.
  revert s. induction evs as [|[now ev] evs IH]; intros s I; cbn; auto.
  apply IH. now apply idle_tracked_step.
Qed.

Lemma ws_onmessage_stream_end h now p s :
  ws_onmessage h now (stream_end p) s
  = displayResponse h now (clearIdleTimeout s).
Proof. reflexivity. Qed.

Lemma clearIdleTimeout_fields s :
  messages (clearIdleTimeout s) = messages s
  /\ accumulatedResponse (clearIdleTimeout s) = accumulatedResponse s
  /\ isDateQuery (clearIdleTimeout s) = isDateQuery s
  /\ randomCalls (clearIdleTimeout s) = randomCalls s
  /\ timeoutRef (clearIdleTimeout s) = timeoutRef s
  /\ lastChunkTimeRef (clearIdleTimeout s) = lastChunkTimeRef s
  /\ localStorage (clearIdleTimeout s) = localStorage s.
Proof.
  unfold clearIdleTimeout.
  destruct (timeoutRef s) eqn:E; cbn; repeat split; auto.
Qed.

Lemma fire_messages_empty h now i s :
  accumulatedResponse s = [] -> messages (fire h now i s) = messages s.
Proof.
  intros E. unfold fire.
  destruct (pending i s) as [t|]; auto.
  destruct (due t <=? now); auto.
  destruct (kind t); [|reflexivity].
  unfold idleTimeout. cbn [lastChunkTimeRef clearTimeout set_timers].
  destruct (lastChunkTimeRef s); auto.
  destruct (_ && _); auto.
  now rewrite displayResponse_empty.
Qed.


Lemma timers_fresh_mount now stored : timers_fresh (mount now stored).
Proof. intros t []. Qed.

Lemma timers_fresh_filter f s :
  timers_fresh s -> timers_fresh (set_timers (filter f (timers s)) s).
Proof. intros F t Ht. cbn in *. apply filter_In in Ht. now apply F. Qed.

Lemma timers_fresh_same s s' :
  timers s' = timers s -> nextTimer s' = nextTimer s ->
  timers_fresh s -> timers_fresh s'.
Proof. intros T N F t Ht. rewrite T in Ht. rewrite N. now apply F. Qed.

Lemma clearIdleTimeout_fresh s :
  timers_fresh s ->
  timers_fresh (clearIdleTimeout s)
  /\ nextTimer (clearIdleTimeout s) = nextTimer s.
Proof.
  intros F. unfold clearIdleTimeout. destruct (timeoutRef s); auto.
  split; [now apply timers_fresh_filter | reflexivity].
Qed.

Lemma timers_fresh_step h now ev s :
  timers_fresh s -> timers_fresh (step h now ev s).
Proof.
  intros F. destruct ev as [ws|ws data|ws|ws|i|text| |cid| |]; cbn [step].
  - exact F.
  - destruct data as [data|]; [|exact F].
    unfold ws_onmessage.
    destruct (str_eqb (type data) (L "ai_chunk")) eqn:Ty.
    + apply str_eqb_eq in Ty.
      destruct (ws_onmessage_chunk h now data s Ty) as (_ & _ & _ & _ & T & N & _).
      unfold ws_onmessage in T, N. rewrite Ty in T, N.
      replace (str_eqb (L "ai_chunk") (L "ai_chunk")) with true in T, N
        by reflexivity.
      destruct (clearIdleTimeout_fresh F) as (F' & N').
      intros t Ht. rewrite N. rewrite T in Ht.
      apply in_app_or in Ht. destruct Ht as [Ht|[<-|[]]]; [|cbn; lia].
      specialize (F' t Ht). lia.
    + destruct (str_eqb (type data) (L "error")); [exact F|].
      destruct (str_eqb (type data) (L "model_connected")); [exact F|].
      destruct (str_eqb (type data) (L "stream_end")); [|exact F].
      destruct (clearIdleTimeout_fresh F) as (F' & N').
      destruct (displayResponse_timers h now (clearIdleTimeout s)) as (T & _ & N).
      apply (timers_fresh_same _ T N) in F'. exact F'.
  - exact F.
  - unfold ws_onclose. destruct (_ <? _)%nat; [|exact F].
    intros t Ht. cbn in *.
    apply in_app_or in Ht. destruct Ht as [Ht|[<-|[]]]; [|cbn; lia].
    specialize (F t Ht). lia.
  - unfold fire. destruct (pending i s) as [t0|]; [|exact F].
    destruct (due t0 <=? now); [|exact F].
    assert (F' : timers_fresh (clearTimeout i s)) by now apply timers_fresh_filter.
    destruct (kind t0); [|exact F'].
    destruct (idleTimeout_timers h now (clearTimeout i s)) as (T & _ & N).
    exact (timers_fresh_same _ T N F').
  - exact F.
  - destruct (handlers_timers now [] s) as ((T & _ & N) & _).
    exact (timers_fresh_same _ T N F).
  - destruct (handlers_timers now cid s) as (_ & (T & _ & N) & _).
    exact (timers_fresh_same _ T N F).
  - destruct (handlers_timers now [] s) as (_ & _ & (T & _ & N)).
    exact (timers_fresh_same _ T N F).
  - unfold cleanup.
    apply clearIdleTimeout_fresh. destruct (wsRef s); exact F.
Qed.

Lemma pending_fresh (t : Timer) (l : list Timer) :
  (forall t', In t' l -> (timer_id t' < timer_id t)%nat) ->
  find (fun t' => (timer_id t' =? timer_id t)%nat) (l ++ [t]) = Some t.
Proof.
  intros F. induction l as [|a l IH]; cbn.
  - now rewrite Nat.eqb_refl.
  - destruct (Nat.eqb_spec (timer_id a) (timer_id t)) as [E|_].
    + specialize (F a (or_introl eq_refl)). lia.
    + apply IH. intros t' Ht'. apply F. now right.
Qed.

Lemma timers_fresh_run h evs : forall s,
  timers_fresh s -> timers_fresh (run_events h evs s).
Proof.
  induction evs as [|[now ev] evs IH]; intros s F; cbn [run_events]; auto.
  apply IH. now apply timers_fresh_step.
Qed.

(** Both timer invariants hold in every reachable state. *)
Lemma reachable_invariants h s :
  reachable h s -> idle_tracked s /\ timers_fresh s.
Proof.
  intros (now & stored & evs & ->). split.
  - apply idle_tracked_run, idle_tracked_mount.
  - apply timers_fresh_run, timers_fresh_mount.
Qed.

(** ** Fragments *)

Lemma run_events_app h evs1 evs2 s :
  run_events h (evs1 ++ evs2) s = run_events h evs2 (run_events h evs1 s).
Proof.
  revert s. induction evs1 as [|[t e] evs1 IH]; intros s; cbn; auto.
Qed.

Lemma no_second_flush h now ev s :
  accumulatedResponse s = [] -> flush_attempt ev ->
  messages (step h now ev s) = messages s.
Proof.
  intros E [[i ->]|(ws & p & ->)]; cbn [step].
  - now apply fire_messages_empty.
  - rewrite ws_onmessage_stream_end.
    destruct (clearIdleTimeout_fields s) as (M & A & _).
    rewrite displayResponse_empty by congruence. exact M.
Qed.

Lemma deliver_cons h ws t p frags s :
  run_events h (deliver ws ((t, p) :: frags)) s
  = run_events h (deliver ws frags) (ws_onmessage h t (chunk p) s).
Proof. reflexivity. Qed.

Lemma deliver_accumulates h ws frags s :
  let s1 := run_events h (deliver ws frags) s in
  accumulatedResponse s1 = accumulatedResponse s ++ concat (map snd frags)
  /\ isDateQuery s1 = (isDateQuery s || existsb dateHint (map snd frags))
  /\ messages s1 = messages s
  /\ randomCalls s1 = randomCalls s.
Proof.
  revert s. induction frags as [|[t p] frags IH]; intros s.
  - cbn. now rewrite app_nil_r, orb_false_r.
  - cbv zeta. rewrite deliver_cons.
    destruct (@ws_onmessage_chunk h t {| type := L "ai_chunk"; payload := p |}
                s eq_refl) as (A & D & _ & _ & _ & _ & M & R).
    cbn [payload] in *.
    destruct (IH (ws_onmessage h t (chunk p) s)) as (A' & D' & M' & R').
    unfold chunk in *.
    rewrite A', D', M', R', A, D, M, R.
    cbn [map snd concat existsb].
    now rewrite app_assoc, orb_assoc.
Qed.

Lemma deliver_arms h ws frags tn pn s :
  timers_fresh s ->
  let s1 := run_events h (deliver ws (frags ++ [(tn, pn)])) s in
  lastChunkTimeRef s1 = Some tn
  /\ exists i, timeoutRef s1 = Some i /\ pending i s1 = Some (idleTimer i tn).
Proof.
  intros F. unfold deliver. rewrite map_app, run_events_app.
  cbn [map run_events fst snd step].
  set (s0 := run_events h _ s).
  assert (F0 : timers_fresh s0).
  { subst s0. revert s F.
    induction frags as [|[t p] frags IH]; intros s F; cbn [map run_events]; auto.
    apply IH. exact (timers_fresh_step h t (SocketMessage ws (chunk p)) F). }
  destruct (@ws_onmessage_chunk h tn {| type := L "ai_chunk"; payload := pn |}
              s0 eq_refl) as (_ & _ & Lc & R & T & _).
  unfold chunk. split; [exact Lc|].
  exists (nextTimer s0). split; [exact R|].
  unfold pending. rewrite T.
  apply (@pending_fresh (idleTimer (nextTimer s0) tn)).
  intros t' Ht'. destruct (clearIdleTimeout_fresh F0) as (F' & N').
  specialize (F' t' Ht'). cbn. lia.
Qed.

Lemma fire_idle h now i tn s :
  pending i s = Some (idleTimer i tn) ->
  lastChunkTimeRef s = Some tn ->
  (now < tn + 1000 -> fire h now i s = s)
  /\ (tn + 1000 <= now -> tn <> 0 ->
      fire h now i s = displayResponse h now (clearTimeout i s)).
Proof.
  intros P Lc. unfold fire. rewrite P. cbn [due kind idleTimer]. split.
  - intros Lt. destruct (Z.leb_spec (tn + 1000) now); [lia|reflexivity].
  - intros Le Nz. destruct (Z.leb_spec (tn + 1000) now); [|lia].
    unfold idleTimeout. cbn [lastChunkTimeRef clearTimeout set_timers].
    rewrite Lc.
    destruct (Z.eqb_spec tn 0); [contradiction|].
    destruct (Z.geb_spec (now - tn) 1000); [reflexivity|lia].
Qed.

(** C2 (as amended).  Fragments F1 ... Fn whose concatenation is not empty,
    arriving on a page whose buffer and date hint are clear, are finalized
    once: while they arrive the message list does not change and the armed
    idle timer cannot flush before a full threshold has passed since the last
    fragment; the end signal, or the idle timer once the threshold has
    passed, then sets the message list to [finalize] of the transformer
    applied to the concatenation in arrival order (with the date hint
    gathered over the fragments), and no later timer or end signal changes
    the message list again. *)
Theorem C2_fragments_finalized (h : Host) (ws : nat) (frags : list (Z * str))
  (tn : Z) (pn : str) (s : State) :
  timers_fresh s ->
  accumulatedResponse s = [] -> isDateQuery s = false ->
  let all := frags ++ [(tn, pn)] in
  let text := concat (map snd all) in
  text <> [] ->
  let s1 := run_events h (deliver ws all) s in
  let formatted := formatResponse h (existsb dateHint (map snd all))
                     (randomCalls s) text in
  let flushed (now : Z) (s2 : State) :=
    messages s2 = finalize formatted now (messages s)
    /\ accumulatedResponse s2 = []
    /\ (forall later ev, flush_attempt ev ->
          messages (step h later ev s2) = messages s2) in
  messages s1 = messages s
  /\ (forall now p, flushed now (step h now (SocketMessage ws (stream_end p)) s1))
  /\ (exists i, timeoutRef s1 = Some i
        /\ (forall now, now < tn + 1000 -> step h now (TimerFires i) s1 = s1)
        /\ (forall now, tn + 1000 <= now -> tn <> 0 ->
              flushed now (step h now (TimerFires i) s1))).
Proof.
  intros F A0 D0 all text NE s1 formatted flushed.
  destruct (deliver_accumulates h ws all s) as (A & D & M & R).
  fold s1 in A, D, M, R. rewrite A0 in A. rewrite D0 in D. cbn in A, D.
  fold text in A.
  assert (Fl : forall now s2, accumulatedResponse s2 = text ->
                 isDateQuery s2 = existsb dateHint (map snd all) ->
                 messages s2 = messages s -> randomCalls s2 = randomCalls s ->
                 flushed now (displayResponse h now s2)).
  { intros now s2 A2 D2 M2 R2. unfold flushed.
    split; [|split; [apply displayResponse_clears|]].
    { rewrite displayResponse_messages by congruence.
      now rewrite A2, D2, M2, R2. }
    intros later ev Hev. apply no_second_flush; auto.
    apply displayResponse_clears. }
  split; [exact M|]. split.
  - intros now p. cbn [step]. rewrite ws_onmessage_stream_end.
    destruct (clearIdleTimeout_fields s1) as (M1 & A1 & D1 & R1 & _).
    apply Fl; congruence.
  - destruct (deliver_arms h ws frags tn pn F) as (Lc & i & Ti & P).
    fold all in Lc, Ti, P. fold s1 in Lc, Ti, P.
    exists i. split; [exact Ti|]. split.
    + intros now Lt. cbn [step].
      now apply (proj1 (@fire_idle h now i tn s1 P Lc)).
    + intros now Le Nz. cbn [step].
      rewrite (proj2 (@fire_idle h now i tn s1 P Lc) Le Nz).
      apply Fl; auto.
Qed.

(** C2, witness: the two fragments [Hel], [lo] of the sample run. *)
Lemma C2_fragments_finalized_witness :
  messages (step utcHost 60 (SocketMessage 0 (stream_end [])) streaming)
  = firstn 2 (messages sent) ++ [finalizedMessage (L "Hello") 30].
Proof.
  assert (T : timers sent = []) by (vm_compute; reflexivity).
  destruct (@C2_fragments_finalized utcHost 0%nat [(40, L "Hel")] 50 (L "lo") sent)
    as (_ & Fl & _).
  - intros t Ht. rewrite T in Ht. contradiction.
  - vm_compute. reflexivity.
  - vm_compute. reflexivity.
  - vm_compute. discriminate.
  - destruct (Fl 60 []) as (M & _). etransitivity; [exact M|].
    vm_compute. reflexivity.
Defined.

(** C2 as stated fails on a fragment sequence whose concatenation is empty:
    after one empty fragment neither the end signal nor the idle timer
    finalizes anything, and the placeholder stays the last message, still
    streaming. *)
Lemma C2_empty_fragment_counterexample :
  let s1 := run_events utcHost (deliver 0 [(40, [])]) sent in
  pending 1 s1 = Some (idleTimer 1 40)
  /\ lastMessageOf (messages (step utcHost 50 (SocketMessage 0 (stream_end [])) s1))
     = Some (placeholder 30)
  /\ lastMessageOf (messages (step utcHost 1040 (TimerFires 1) s1))
     = Some (placeholder 30)
  /\ isStreaming (placeholder 30) = Some true.
Proof. vm_compute. repeat split. Qed.

(** ** Informational envelopes *)

(** C7 (as amended).  An [error] envelope is surfaced: one assistant message
    [Error: payload] is appended, and nothing else changes, so the buffer,
    the timers and the sockets are as before.  A [warning] or [status]
    envelope leaves the whole state as it is: nothing is shown, nothing is
    accumulated, and the connection is not closed. *)
Theorem C7_informational_envelopes (h : Host) (now : Z) (p : str) (s : State) :
  ws_onmessage h now (envelope (L "error") p) s
  = set_messages (messages s ++ [errorMessage p now]) s
  /\ ws_onmessage h now (envelope (L "warning") p) s = s
  /\ ws_onmessage h now (envelope (L "status") p) s = s.
Proof. repeat split. Qed.

(** C7 as stated fails for [status] and [warning]: on the open page either
    envelope leaves the message list, and the whole state, unchanged. *)
Lemma C7_status_warning_counterexample :
  step utcHost 20 (SocketMessage 0 (envelope (L "status") (L "Processing tool call 1/3"))) opened
  = opened
  /\ step utcHost 20 (SocketMessage 0 (envelope (L "warning") (L "Reached maximum consecutive tool calls limit (15)"))) opened
     = opened
  /\ messages opened = [greeting 0].
Proof. repeat split. Qed.

(** ** Loading a conversation *)

(** C8 (as amended).  Loading an id that the history does not hold returns
    normally, without any error, and changes nothing but the side bar, which
    it closes: the message list and the active-conversation pointer are as
    before and nothing is sent.  Loading an id that the history holds makes
    the messages of the first conversation with that id the message list and
    the id the active-conversation pointer, also when the send that follows
    throws. *)
Theorem C8_load (conversationId : str) (s : State) :
  (findConversation conversationId s = None ->
   handleLoadConversation conversationId s
   = (Returned, set_isSidebarOpen false s))
  /\ (forall conversation,
        findConversation conversationId s = Some conversation ->
        let s' := snd (handleLoadConversation conversationId s) in
        messages s' = conv_messages conversation
        /\ currentConversationId s' = Some conversationId
        /\ history s' = history s
        /\ localStorage s' = localStorage s).
Proof.
  unfold findConversation, handleLoadConversation, andThen, update, ws_send.
  split.
  - intros E. now rewrite E.
  - intros conversation E. rewrite E. cbn.
    handler_cases.
Qed.

(** C8 as stated fails: loading an id that is not in the history reports
    nothing.  The handler returns normally, as it does for a known id, and
    sends nothing. *)
Lemma C8_unknown_id_counterexample :
  findConversation (L "no-such-id") opened = None
  /\ fst (handleLoadConversation (L "no-such-id") opened) = Returned
  /\ outbox (snd (handleLoadConversation (L "no-such-id") opened)) = outbox opened
  /\ fst (handleLoadConversation (L "30") sent) = Returned.
Proof. vm_compute. repeat split. Qed.

(** ** The archive *)








(** ** Reconnection *)

Lemma update_nth_length {A} n (f : A -> A) l :
  length (update_nth n f l) = length l.
Proof.
  revert n. induction l as [|x l IH]; intros [|n]; cbn; auto.
Qed.

Lemma filter_fresh (i : nat) (t : Timer) (l : list Timer) :
  timer_id t = i ->
  (forall t', In t' l -> (timer_id t' < i)%nat) ->
  filter (fun t' => negb (timer_id t' =? i)%nat) (l ++ [t]) = l.
Proof.
  intros E F. rewrite filter_app. cbn. rewrite E, Nat.eqb_refl. cbn.
  rewrite app_nil_r.
  induction l as [|a l IH]; cbn; auto.
  destruct (Nat.eqb_spec (timer_id a) i) as [Ea|_]; cbn.
  - specialize (F a (or_introl eq_refl)). lia.
  - f_equal. apply IH. intros t' Ht'. apply F. now right.
Qed.

(** A close below the bound arms one reconnection timer. *)
Lemma ws_onclose_retry now s :
  (reconnectAttempts s < maxReconnectAttempts)%nat ->
  ws_onclose now s
  = set_nextTimer (S (nextTimer s))
      (set_timers (timers s ++ [reconnectTimer (nextTimer s) now]) s).
Proof.
  intros Lt. unfold ws_onclose.
  now destruct (Nat.ltb_spec (reconnectAttempts s) maxReconnectAttempts); [|lia].
Qed.

(** A close at the bound emits the notice. *)
Lemma ws_onclose_give_up now s :
  (maxReconnectAttempts <= reconnectAttempts s)%nat ->
  ws_onclose now s = set_messages (messages s ++ [unreachableNotice now]) s.
Proof.
  intros Le. unfold ws_onclose.
  now destruct (Nat.ltb_spec (reconnectAttempts s) maxReconnectAttempts); [lia|].
Qed.

(** One failure: the close, then the timer it armed. *)
Lemma close_then_retry h now t ws s :
  timers_fresh s ->
  (reconnectAttempts s < maxReconnectAttempts)%nat ->
  let closed := step h now (SocketClose ws) s in
  timers closed = timers s ++ [reconnectTimer (nextTimer s) now]
  /\ messages closed = messages s
  /\ length (sockets closed) = length (sockets s)
  /\ (t < now + reconnectInterval ->
      step h t (TimerFires (nextTimer s)) closed = closed)
  /\ (now + reconnectInterval <= t ->
      let retried := step h t (TimerFires (nextTimer s)) closed in
      reconnectAttempts retried = S (reconnectAttempts s)
      /\ sockets retried = sockets closed ++ [newSocket]
      /\ wsRef retried = Some (length (sockets s))
      /\ timers retried = timers s
      /\ nextTimer retried = S (nextTimer s)
      /\ messages retried = messages s).
Proof.
  intros F Lt closed. subst closed. cbn [step].
  rewrite ws_onclose_retry by exact Lt.
  cbn -[Z.add reconnectTimer].
  rewrite update_nth_length.
  assert (P : find (fun t0 => (timer_id t0 =? nextTimer s)%nat)
                (timers s ++ [reconnectTimer (nextTimer s) now])
              = Some (reconnectTimer (nextTimer s) now))
    by (apply (@pending_fresh (reconnectTimer (nextTimer s) now)); exact F).
  repeat split.
  - intros Lt'. unfold fire, pending. cbn -[Z.add reconnectTimer].
    rewrite P. cbn -[Z.add].
    now destruct (Z.leb_spec (now + reconnectInterval) t); [lia|].
  - unfold fire, pending. cbn -[Z.add reconnectTimer]. rewrite P.
    cbn -[Z.add]. now destruct (Z.leb_spec (now + reconnectInterval) t); [|lia].
  - unfold fire, pending. cbn -[Z.add reconnectTimer]. rewrite P.
    cbn -[Z.add]. now destruct (Z.leb_spec (now + reconnectInterval) t); [|lia].
  - unfold fire, pending. cbn -[Z.add reconnectTimer]. rewrite P.
    cbn -[Z.add]. destruct (Z.leb_spec (now + reconnectInterval) t); [|lia].
    cbn. now rewrite update_nth_length.
  - unfold fire, pending. cbn -[Z.add reconnectTimer]. rewrite P.
    cbn -[Z.add]. destruct (Z.leb_spec (now + reconnectInterval) t); [|lia].
    cbn -[Z.add reconnectTimer filter].
    now apply filter_fresh.
  - unfold fire, pending. cbn -[Z.add reconnectTimer]. rewrite P.
    cbn -[Z.add]. now destruct (Z.leb_spec (now + reconnectInterval) t); [|lia].
  - unfold fire, pending. cbn -[Z.add reconnectTimer]. rewrite P.
    cbn -[Z.add]. now destruct (Z.leb_spec (now + reconnectInterval) t); [|lia].
Qed.

Lemma failedAttempts_spec h n : forall now s,
  timers_fresh s ->
  (reconnectAttempts s + n <= maxReconnectAttempts)%nat ->
  let sn := failedAttempts h n now s in
  reconnectAttempts sn = (reconnectAttempts s + n)%nat
  /\ length (sockets sn) = (length (sockets s) + n)%nat
  /\ messages sn = messages s
  /\ timers sn = timers s.
Proof.
  induction n as [|n IH]; intros now s F Le; cbn [failedAttempts].
  - cbv zeta. rewrite !Nat.add_0_r. auto.
  - cbv zeta.
    assert (Lt : (reconnectAttempts s < maxReconnectAttempts)%nat) by lia.
    destruct (@close_then_retry h now (now + reconnectInterval)
                (currentSocket s) s F Lt) as (_ & _ & Ln & _ & Re).
    destruct (Re (Z.le_refl _)) as (Ra & So & _ & Ti & _ & Me).
    set (retried := step h (now + reconnectInterval) (TimerFires (nextTimer s))
                      (step h now (SocketClose (currentSocket s)) s)) in *.
    assert (F' : timers_fresh retried)
      by (subst retried; now do 2 apply timers_fresh_step).
    destruct (IH (now + reconnectInterval) retried F') as (Ra' & So' & Me' & Ti').
    { rewrite Ra. lia. }
    rewrite Ra', So', Me', Ti', Ra, So, Me, Ti, length_app, Ln. cbn.
    repeat split; lia.
Qed.

Lemma displayResponse_connection h now s :
  reconnectAttempts (displayResponse h now s) = reconnectAttempts s
  /\ sockets (displayResponse h now s) = sockets s.
Proof. unfold displayResponse. now destruct (negb _). Qed.

Lemma handlers_connection now cid s :
  let same s' := reconnectAttempts s' = reconnectAttempts s
                 /\ sockets s' = sockets s in
  same (snd (handleSend now s))
  /\ same (snd (handleLoadConversation cid s))
  /\ same (snd (handleNewConversation now s)).
Proof.
  unfold handleSend, handleLoadConversation, handleNewConversation, andThen,
    update, ws_send.
  cbn. repeat split; handler_cases.
Qed.

(** Having given up, the page stays so, and opens no socket, whatever
    happens short of a socket opening. *)
Lemma given_up_step h now ev s :
  not_open ev -> given_up s ->
  given_up (step h now ev s)
  /\ length (sockets (step h now ev s)) = length (sockets s).
Proof.
  intros No [Le Nr].
  destruct ev as [ws|ws data|ws|ws|i|text| |cid| |]; cbn [step].
  - destruct No.
  - destruct data as [data|]; [|now repeat split].
    unfold ws_onmessage.
    destruct (str_eqb (type data) (L "ai_chunk")) eqn:Ty.
    + unfold clearIdleTimeout. cbn.
      destruct (timeoutRef s); cbn; repeat split; auto;
        intros t Ht; apply in_app_or in Ht;
        destruct Ht as [Ht|[<-|[]]]; try discriminate.
      * apply filter_In in Ht. now apply Nr.
      * now apply Nr.
    + destruct (str_eqb (type data) (L "error")); [now repeat split|].
      destruct (str_eqb (type data) (L "model_connected")); [now repeat split|].
      destruct (str_eqb (type data) (L "stream_end")); [|now repeat split].
      destruct (displayResponse_connection h now (clearIdleTimeout s)) as (Ra & So).
      destruct (displayResponse_timers h now (clearIdleTimeout s)) as (Ti & _).
      unfold given_up, no_reconnect_timer. rewrite Ra, So, Ti.
      unfold clearIdleTimeout.
      destruct (timeoutRef s); cbn; repeat split; auto.
      intros t Ht. apply filter_In in Ht. now apply Nr.
  - now repeat split.
  - rewrite ws_onclose_give_up by exact Le.
    cbn. rewrite update_nth_length. now repeat split.
  - unfold fire. destruct (pending i s) as [t0|] eqn:P; [|now repeat split].
    destruct (due t0 <=? now); [|now repeat split].
    assert (G : given_up (clearTimeout i s)).
    { split; [exact Le|]. intros t Ht. cbn in Ht.
      apply filter_In in Ht. now apply Nr. }
    destruct (kind t0) eqn:K.
    + destruct (idleTimeout_timers h now (clearTimeout i s)) as (Ti & _).
      unfold idleTimeout. cbn [lastChunkTimeRef clearTimeout set_timers].
      destruct (lastChunkTimeRef s); [|now split].
      destruct (_ && _); [|now split].
      destruct (displayResponse_connection h now (clearTimeout i s)) as (Ra & So).
      destruct (displayResponse_timers h now (clearTimeout i s)) as (Ti' & _).
      unfold given_up, no_reconnect_timer. rewrite Ra, So, Ti'.
      destruct G. now repeat split.
    + apply find_some in P. destruct P as [P _]. now elim (Nr t0 P).
  - now repeat split.
  - destruct (handlers_connection now [] s) as ((Ra & So) & _).
    destruct (handlers_timers now [] s) as ((Ti & _) & _).
    unfold given_up, no_reconnect_timer. rewrite Ra, So, Ti. now repeat split.
  - destruct (handlers_connection now cid s) as (_ & (Ra & So) & _).
    destruct (handlers_timers now cid s) as (_ & (Ti & _) & _).
    unfold given_up, no_reconnect_timer. rewrite Ra, So, Ti. now repeat split.
  - destruct (handlers_connection now [] s) as (_ & _ & (Ra & So)).
    destruct (handlers_timers now [] s) as (_ & _ & (Ti & _)).
    unfold given_up, no_reconnect_timer. rewrite Ra, So, Ti. now repeat split.
  - unfold cleanup, clearIdleTimeout, ws_close.
    destruct (wsRef s); cbn; destruct (timeoutRef s); cbn;
      rewrite ?update_nth_length; repeat split; auto;
      intros t Ht; apply filter_In in Ht; now apply Nr.
Qed.

Lemma given_up_run h evs : forall s,
  Forall (fun e => not_open (snd e)) evs -> given_up s ->
  given_up (run_events h evs s)
  /\ length (sockets (run_events h evs s)) = length (sockets s).
Proof.
  induction evs as [|[now ev] evs IH]; intros s Fa G; cbn [run_events].
  - now split.
  - inversion Fa as [|? ? No Fa']; subst. cbn in No.
    destruct (given_up_step h now ev No G) as (G' & Ln).
    destruct (IH _ Fa' G') as (G'' & Ln').
    split; [exact G''|congruence].
Qed.

(** C4 (as amended).  The close handler does not ask who closed the socket.
    While fewer than five attempts have been made, every close event arms
    exactly one reconnection timer, due one fixed interval later; the attempt
    (a new socket, the counter plus one) is made when that timer fires and
    not before.  So [n <= 5] failures in a row, counted from zero, make
    exactly [n] attempts and add no message.  A close event that arrives when
    five attempts have been made arms nothing and appends the notice; from
    then on, as long as no socket opens, no event makes the page open another
    socket. *)
Theorem C4_reconnection (h : Host) (now : Z) (ws : nat) (s : State) :
  timers_fresh s ->
  ((reconnectAttempts s < maxReconnectAttempts)%nat ->
   let closed := step h now (SocketClose ws) s in
   timers closed = timers s ++ [reconnectTimer (nextTimer s) now]
   /\ messages closed = messages s
   /\ (forall t, t < now + reconnectInterval ->
         step h t (TimerFires (nextTimer s)) closed = closed)
   /\ (forall t, now + reconnectInterval <= t ->
         let retried := step h t (TimerFires (nextTimer s)) closed in
         reconnectAttempts retried = S (reconnectAttempts s)
         /\ sockets retried = sockets closed ++ [newSocket]
         /\ wsRef retried = Some (length (sockets s))
         /\ timers retried = timers s))
  /\ (forall n, reconnectAttempts s = 0%nat -> (n <= maxReconnectAttempts)%nat ->
        let sn := failedAttempts h n now s in
        reconnectAttempts sn = n
        /\ length (sockets sn) = (length (sockets s) + n)%nat
        /\ messages sn = messages s
        /\ timers sn = timers s)
  /\ ((maxReconnectAttempts <= reconnectAttempts s)%nat ->
      let closed := step h now (SocketClose ws) s in
      messages closed = messages s ++ [unreachableNotice now]
      /\ timers closed = timers s
      /\ reconnectAttempts closed = reconnectAttempts s
      /\ (no_reconnect_timer s ->
          forall evs, Forall (fun e => not_open (snd e)) evs ->
            length (sockets (run_events h evs closed)) = length (sockets s)
            /\ given_up (run_events h evs closed))).
Proof.
  intros F. split; [|split].
  - intros Lt closed. subst closed.
    split; [apply (close_then_retry h now 0 ws F Lt)|].
    split; [apply (close_then_retry h now 0 ws F Lt)|].
    split.
    + intros t Ht. now apply (close_then_retry h now t ws F Lt).
    + intros t Ht.
      destruct (close_then_retry h now t ws F Lt) as (_ & _ & _ & _ & Re).
      destruct (Re Ht) as (Ra & So & Wr & Ti & _). auto.
  - intros n Z0 Le.
    destruct (@failedAttempts_spec h n now s F) as (Ra & So & Me & Ti).
    { rewrite Z0. exact Le. }
    rewrite Z0 in Ra. auto.
  - intros Le closed. subst closed. cbn [step].
    rewrite ws_onclose_give_up by exact Le.
    cbn [messages timers reconnectAttempts set_messages set_readyState
           set_sockets].
    repeat split.
    + destruct (@given_up_run h evs
                  (set_messages
                     (messages s ++ [unreachableNotice now])
                     (set_readyState ws CLOSED s))) as (_ & Ln); auto.
      * now split.
      * rewrite Ln. cbn. apply update_nth_length.
    + apply given_up_run; auto. now split.
    + apply given_up_run; auto. now split.
Qed.

(** C4, witness: the first close of the sample run arms timer 1. *)
Lemma C4_reconnection_witness :
  timers (step utcHost 100 (SocketClose 0) opened) = [reconnectTimer 1 100].
Proof.
  assert (T0 : timers opened = []) by (vm_compute; reflexivity).
  destruct (@C4_reconnection utcHost 100 0%nat opened) as (R & _).
  - intros t Ht. rewrite T0 in Ht. contradiction.
  - destruct R as (T & _).
    + vm_compute. lia.
    + etransitivity; [exact T|]. vm_compute. reflexivity.
Defined.

(** C4 as stated fails: a close that the page itself asked for is followed
    by a reconnection.  The page is unmounted, which closes its socket; the
    close event arms the reconnection timer, and when that fires a second
    socket is created. *)
Lemma C4_caller_close_counterexample :
  let closing := step utcHost 100 Unmount opened in
  let closed := step utcHost 110 (SocketClose 0) closing in
  option_map closeCalled (nth_error (sockets closing) 0) = Some true
  /\ timers closed = [reconnectTimer 1 110]
  /\ sockets (step utcHost 3110 (TimerFires 1) closed)
     = [{| readyState := CLOSED; closeCalled := true |}; newSocket].
Proof. vm_compute. repeat split. Qed.

(** ** The calendar and the cleaning stages on examples *)

Lemma calendar_examples :
  JSDate.days_from_civil 1970 1 1 = 0
  /\ JSDate.civil_from_days 0 = (1970, 1, 1)
  /\ JSDate.civil_from_days (-1) = (1969, 12, 31)
  /\ JSDate.days_from_civil 2024 5 3 = 19846
  /\ JSDate.civil_from_days (JSDate.days_from_civil 2024 2 29) = (2024, 2, 29)
  /\ JSDate.civil_from_days (JSDate.days_from_civil 2024 2 29 + 1) = (2024, 3, 1)
  /\ JSDate.civil_from_days (JSDate.days_from_civil 2023 12 31 + 1) = (2024, 1, 1).
Proof. vm_compute. repeat split. Qed.

(** Emphasis marks, a lead-in sentence, a tool call and a closing sentence
    are removed. *)
Lemma cleanResponse_example_boilerplate :
  cleanResponse
    (L "Hello **world**. Let me check that for you. Done TOOL_CALL::{x} ok. Let me know if you need more")
  = L "Hello world.  Done  ok.".
Proof. vm_compute. reflexivity. Qed.

(** Numbered lines are removed up to the end of their line; the closing
    sentence stays when a line break follows it. *)
Lemma cleanResponse_example_lines :
  cleanResponse (L "Steps:" ++ [NL] ++ L "1. Install" ++ [NL] ++ L "2. Run"
                 ++ [NL] ++ L "Done")
  = L "Steps:" ++ [NL; NL; NL] ++ L "Done"
  /\ cleanResponse (L "Bye. let me know if" ++ [NL] ++ L "more")
     = L "Bye. let me know if" ++ [NL] ++ L "more".
Proof. vm_compute. split; reflexivity. Qed.

(** A fence whose label is followed by a carriage return is no code block:
    the text is cleaned as prose. *)
Lemma formatResponse_example_unterminated :
  formatResponse utcHost false 0 (L "```py" ++ [CR; NL] ++ L "x```")
  = L "py" ++ [CR; NL] ++ L "x".
Proof. vm_compute. reflexivity. Qed.

(** ** The response transformer *)





Lemma parse_2024_05_03 h :
  JSDate.parse h (L "2024-05-03") = Some (19846 * JSDate.msPerDay).
Proof. reflexivity. Qed.

Lemma local_civil_same_day h t day :
  t = day * JSDate.msPerDay ->
  0 <= localTZA h t < JSDate.msPerDay ->
  JSDate.local_civil h t = JSDate.civil_from_days day.
Proof.
  intros -> B. unfold JSDate.local_civil. f_equal.
  symmetry. apply (Z.div_unique_pos _ _ _ (localTZA h (day * JSDate.msPerDay)));
    [exact B | unfold JSDate.msPerDay; lia].
Qed.

(** C6 (as amended).  With the date hint set, a text whose first date-like
    match is [2024-05-03] is rendered as exactly [Today's date is
    03/05/2024], and no later stage runs, on a host whose local time is at
    or ahead of UTC (by less than a day) at that instant. *)
Theorem C6_date_branch (h : Host) (drawn : nat) (text : str) (f : found) :
  exec no_flags re_date text = Some f ->
  matched f = L "2024-05-03" ->
  0 <= localTZA h (19846 * JSDate.msPerDay) < JSDate.msPerDay ->
  formatResponse h true drawn text = L "Today's date is 03/05/2024"
  /\ formatDraws h true text = 0%nat.
Proof.
  intros E M B. unfold formatResponse, formatDraws, dateResponse.
  rewrite E, M, parse_2024_05_03.
  unfold JSDate.getDate, JSDate.getMonth, JSDate.getFullYear.
  rewrite (@local_civil_same_day h _ 19846 eq_refl B).
  split; reflexivity.
Qed.

(** C6, witness: the sentence alone, on the UTC host. *)
Lemma C6_date_branch_witness :
  formatResponse utcHost true 0 (L "The date is 2024-05-03.")
  = L "Today's date is 03/05/2024".
Proof.
  refine (proj1 (@C6_date_branch utcHost 0
                   (L "The date is 2024-05-03.")
                   {| before := L "The date is "; matched := L "2024-05-03";
                      groups := [(2%nat, L "2024-05-03")]; rest := L "." |}
                   _ _ _)).
  - vm_compute. reflexivity.
  - reflexivity.
  - vm_compute. split; [discriminate | reflexivity].
Defined.

(** C6 as stated fails: a text that contains the sentence after an earlier
    date is rendered with the earlier date. *)
Lemma C6_earlier_date_counterexample :
  let text := L "Updated 1999-01-01. The date is 2024-05-03." in
  includes (L "The date is 2024-05-03.") text = true
  /\ formatResponse utcHost true 0 text = L "Today's date is 01/01/1999"
  /\ formatResponse utcHost true 0 text <> L "Today's date is 03/05/2024".
Proof.
  split; [reflexivity|]. split; [vm_compute; reflexivity|].
  intros E. vm_compute in E. discriminate E.
Qed.

(** West of UTC the date branch shows the day before: the ISO date is read
    as UTC midnight and printed in local time. *)
Lemma date_branch_west_of_utc :
  formatResponse westHost true 0 (L "The date is 2024-05-03.")
  = L "Today's date is 02/05/2024".
Proof. vm_compute. reflexivity. Qed.

(** ** Fenced code blocks *)

Lemma run_Chr fl a s caps k : run fl (Chr a) (a :: s) caps k = k s caps.
Proof.
  cbn. destruct (ignoreCase fl).
  - now destruct (ascii_dec (upper a) (upper a)).
  - now destruct (ascii_dec a a).
Qed.

Lemma run_Chr_other fl a b s caps k :
  ignoreCase fl = false -> a <> b -> run fl (Chr a) (b :: s) caps k = None.
Proof.
  intros E N. cbn. rewrite E. now destruct (ascii_dec a b).
Qed.

Lemma run_Cat fl r1 r2 s caps k :
  run fl (Cat r1 r2) s caps k
  = run fl r1 s caps (fun s1 c1 => run fl r2 s1 c1 k).
Proof. reflexivity. Qed.

Lemma run_lit fl p : forall s caps k,
  run fl (lit p) (p ++ s) caps k = k s caps.
Proof.
  induction p as [|a p IH]; intros s caps k; [reflexivity|].
  destruct p as [|b p]; [apply run_Chr|].
  change (lit (a :: b :: p)) with (Cat (Chr a) (lit (b :: p))).
  rewrite run_Cat.
  change ((a :: b :: p) ++ s) with (a :: (b :: p) ++ s).
  rewrite run_Chr. apply IH.
Qed.

(** A literal does not match where the input does not start with it. *)
Lemma run_lit_fail fl p : forall s caps k,
  ignoreCase fl = false ->
  starts_with p s = false -> run fl (lit p) s caps k = None.
Proof.
  induction p as [|a p IH]; intros s caps k E S; [discriminate|].
  destruct s as [|b s].
  - destruct p; reflexivity.
  - cbn [starts_with] in S.
    destruct (ascii_dec a b) as [<-|N].
    + destruct p as [|c p]; [discriminate|].
      change (lit (a :: c :: p)) with (Cat (Chr a) (lit (c :: p))).
      rewrite run_Cat, run_Chr. now apply IH.
    + destruct p as [|c p]; [now apply run_Chr_other|].
      change (lit (a :: c :: p)) with (Cat (Chr a) (lit (c :: p))).
      rewrite run_Cat. now apply run_Chr_other.
Qed.

Lemma starts_with_app f rest : starts_with f (f ++ rest) = true.
Proof.
  induction f as [|a f IH]; [reflexivity|]. cbn.
  now destruct (ascii_dec a a).
Qed.

Lemma starts_with_longer f : forall u v,
  starts_with f u = false -> (length f <= length u)%nat ->
  starts_with f (u ++ v) = false.
Proof.
  induction f as [|a f IH]; intros u v S Ln; [discriminate|].
  destruct u as [|b u]; [cbn in Ln; lia|].
  cbn [starts_with app] in *.
  destruct (ascii_dec a b); [|reflexivity].
  apply IH; [exact S | cbn in Ln; lia].
Qed.

Lemma starts_with_prefix_false f g : forall s,
  starts_with f s = false -> starts_with (f ++ g) s = false.
Proof.
  induction f as [|a f IH]; intros s S; [discriminate|].
  destruct s as [|b s]; [reflexivity|].
  cbn [starts_with app] in *.
  destruct (ascii_dec a b); [now apply IH | reflexivity].
Qed.

Lemma find_from_eq p s :
  find_from p s
  = if starts_with p s then Some 0%nat
    else match s with
         | [] => None
         | _ :: s' => option_map S (find_from p s')
         end.
Proof. now destruct s. Qed.

(** Inside a text that is fence-free before its end, no fence starts, and
    what is left is fence-free before its end. *)
Lemma fence_free_cons a p :
  fence_free_before (a :: p) = true ->
  starts_with fence (a :: p ++ fence) = false
  /\ fence_free_before p = true.
Proof.
  unfold fence_free_before.
  change ((a :: p) ++ fence) with (a :: p ++ fence).
  rewrite (find_from_eq fence (a :: p ++ fence)).
  destruct (starts_with fence (a :: p ++ fence)); [discriminate|].
  destruct (find_from fence (p ++ fence)) as [n|]; [|discriminate].
  cbn [option_map length Nat.eqb]. auto.
Qed.

Lemma fence_free_suffix pre : forall q,
  fence_free_before (pre ++ q) = true -> fence_free_before q = true.
Proof.
  induction pre as [|a pre IH]; intros q F; [exact F|].
  apply IH. exact (proj2 (fence_free_cons _ _ F)).
Qed.

Lemma fence_free_no_start a p rest :
  fence_free_before (a :: p) = true ->
  starts_with fence (a :: p ++ fence ++ rest) = false.
Proof.
  intros F. destruct (fence_free_cons _ _ F) as (S & _).
  change (a :: p ++ fence ++ rest) with ((a :: p) ++ fence ++ rest).
  rewrite app_assoc. apply starts_with_longer; [exact S|].
  cbn. rewrite length_app. cbn. lia.
Qed.

Section Stars.

(** A body matcher that reads one character of class [p]. *)
Variable m : str -> captures -> cont -> option result.
Variable p : ascii -> bool.
Hypothesis m_one_char : forall s caps k,
  m s caps k = match s with
               | a :: s' => if p a then k s' caps else None
               | [] => None
               end.

Variables (k : cont) (z : result).

(** A greedy star over a run of characters of the class that ends at a
    character outside it: when the continuation accepts there, that is
    the match. *)
Lemma greedy_star : forall w s caps fuel,
  forallb p w = true ->
  match s with [] => True | b :: _ => p b = false end ->
  (length (w ++ s) < fuel)%nat ->
  k s caps = Some z ->
  repeat_matcher m Greedy k fuel 0 None (w ++ s) caps = Some z.
Proof.
  induction w as [|a w IH]; intros s caps fuel W E F K;
    (destruct fuel as [|fuel]; [cbn in F; lia|]).
  - cbn [app repeat_matcher max_is_zero Nat.ltb Nat.leb].
    rewrite m_one_char.
    destruct s as [|b s]; [now rewrite K|].
    now rewrite E, K.
  - cbn in W. apply andb_true_iff in W. destruct W as [Wa W].
    cbn [app repeat_matcher max_is_zero Nat.ltb Nat.leb].
    rewrite m_one_char, Wa.
    cbn [Nat.eqb andb length].
    destruct (Nat.eqb_spec (length (w ++ s)) (S (length (w ++ s)))); [lia|].
    cbn [pred pred_max option_map].
    rewrite (IH s caps fuel W E); auto. cbn in F. lia.
Qed.

(** A lazy star before a continuation that rejects every place inside the
    run it stands on: the match ends where the run ends. *)
Lemma lazy_star : forall c s caps fuel,
  forallb p c = true ->
  (forall pre a y, c = pre ++ a :: y -> k (a :: y ++ s) caps = None) ->
  (length (c ++ s) < fuel)%nat ->
  k s caps = Some z ->
  repeat_matcher m Lazy k fuel 0 None (c ++ s) caps = Some z.
Proof.
  induction c as [|a c IH]; intros s caps fuel P Kf F K;
    (destruct fuel as [|fuel]; [cbn in F; lia|]).
  - cbn [app repeat_matcher max_is_zero Nat.ltb Nat.leb]. now rewrite K.
  - cbn in P. apply andb_true_iff in P. destruct P as [Pa P].
    cbn [app repeat_matcher max_is_zero Nat.ltb Nat.leb].
    rewrite (Kf [] a c eq_refl).
    rewrite m_one_char, Pa.
    cbn [Nat.eqb andb length].
    destruct (Nat.eqb_spec (length (c ++ s)) (S (length (c ++ s)))); [lia|].
    cbn [pred pred_max option_map].
    apply IH; auto.
    + intros pre a' y ->. exact (Kf (a :: pre) a' y eq_refl).
    + cbn in F. lia.
Qed.

End Stars.

Lemma firstn_prefix (a b : str) :
  firstn (length (a ++ b) - length b) (a ++ b) = a.
Proof.
  rewrite length_app.
  replace (length a + length b - length b)%nat with (length a + 0)%nat by lia.
  now rewrite firstn_app_2, app_nil_r.
Qed.

Lemma run_class_one_char fl (r : regex) (p : ascii -> bool) :
  (forall c, char_matches fl r c = p c) ->
  match r with
  | Chr _ | Dot | Digit | Word | Space | Any => True
  | _ => False
  end ->
  forall s caps k,
    run fl r s caps k = match s with
                        | a :: s' => if p a then k s' caps else None
                        | [] => None
                        end.
Proof.
  intros E C s caps k.
  destruct r; try contradiction;
    (destruct s as [|a s]; cbn [run one_char]; [reflexivity | now rewrite E]).
Qed.

(** One attempt of [codeBlockRegex] at a fenced block: it matches the block,
    with the label and the body as its groups. *)
Lemma match_fenced lang body rest :
  all_word lang = true -> fence_free_before body = true ->
  match_here no_flags codeBlockRegex (fenced lang body ++ rest)
  = Some (rest, [(2%nat, body); (1%nat, lang)]).
Proof.
  intros W N. unfold match_here, fenced.
  change codeBlockRegex
    with (Cat (lit fence)
            (Cat (Group 1 (star Greedy Word))
               (Cat (Chr NL) (Cat (Group 2 (star Lazy Any)) (lit fence))))).
  rewrite <- !app_assoc.
  rewrite run_Cat, run_lit, run_Cat.
  cbn [run star].
  apply (@greedy_star (run no_flags Word) is_word).
  - apply run_class_one_char; [reflexivity|exact I].
  - exact W.
  - reflexivity.
  - lia.
  - rewrite firstn_prefix.
    change ([NL] ++ body ++ fence ++ rest) with (NL :: body ++ fence ++ rest).
    change (one_char no_flags (Chr NL) (NL :: body ++ fence ++ rest))
      with (run no_flags (Chr NL) (NL :: body ++ fence ++ rest)).
    rewrite run_Chr.
    apply (@lazy_star (run no_flags Any) (fun _ => true)).
    + now intros [|a s] caps k.
    + now apply forallb_forall.
    + intros pre a y E. apply run_lit_fail; [reflexivity|].
      apply fence_free_no_start.
      apply (fence_free_suffix pre). now rewrite <- E.
    + lia.
    + rewrite firstn_prefix. now rewrite run_lit.
Qed.

(** No attempt succeeds where no fence starts. *)
Lemma match_not_fence s :
  starts_with fence s = false -> match_here no_flags codeBlockRegex s = None.
Proof.
  intros N. unfold match_here.
  change codeBlockRegex
    with (Cat (lit fence)
            (Cat (Group 1 (star Greedy Word))
               (Cat (Chr NL) (Cat (Group 2 (star Lazy Any)) (lit fence))))).
  rewrite run_Cat. now apply run_lit_fail.
Qed.

Lemma exec_all_skip fl r x : forall rest,
  exec_all fl r (length x) (x ++ rest) = exec_all fl r 0 rest.
Proof. induction x as [|a x IH]; intros rest; cbn; auto. Qed.

Lemma exec_all_match fl r c s' s1 c1 n :
  match_here fl r (c :: s') = Some (s1, c1) ->
  (length (c :: s') - length s1 = S n)%nat ->
  exec_all fl r 0 (c :: s')
  = (firstn (S n) (c :: s'), c1) :: exec_all fl r n s'.
Proof. intros M Ln. cbn [exec_all]. now rewrite M, Ln. Qed.

Lemma exec_all_no_match fl r c s' :
  match_here fl r (c :: s') = None ->
  exec_all fl r 0 (c :: s') = exec_all fl r 0 s'.
Proof. intros M. cbn [exec_all]. now rewrite M. Qed.

(** The scan passes over prose in which no fence starts. *)
Lemma codeBlockMatches_prose p rest :
  fence_free_before p = true ->
  codeBlockMatches (p ++ fence ++ rest) = codeBlockMatches (fence ++ rest).
Proof.
  unfold codeBlockMatches. induction p as [|a p IH]; intros N; [reflexivity|].
  change ((a :: p) ++ fence ++ rest) with (a :: p ++ fence ++ rest).
  rewrite exec_all_no_match
    by (apply match_not_fence; now apply fence_free_no_start).
  apply IH. exact (proj2 (fence_free_cons _ _ N)).
Qed.

(** Prose without fence holds no code block. *)
Lemma codeBlockMatches_no_fence p :
  no_fence p = true -> codeBlockMatches p = [].
Proof.
  unfold codeBlockMatches, no_fence.
  induction p as [|a p IH]; intros N; [reflexivity|].
  rewrite find_from_eq in N.
  destruct (starts_with fence (a :: p)) eqn:S; [discriminate|].
  rewrite exec_all_no_match by now apply match_not_fence.
  apply IH. now destruct (find_from fence p).
Qed.

Lemma codeBlockMatches_fenced lang body rest :
  all_word lang = true -> fence_free_before body = true ->
  codeBlockMatches (fenced lang body ++ rest)
  = (fenced lang body, [(2%nat, body); (1%nat, lang)]) :: codeBlockMatches rest.
Proof.
  intros W N. unfold codeBlockMatches.
  pose proof (match_fenced lang body rest W N) as M.
  set (f' := [BQ; BQ] ++ lang ++ [NL] ++ body ++ fence).
  change (fenced lang body) with (BQ :: f') in *.
  change ((BQ :: f') ++ rest) with (BQ :: f' ++ rest) in *.
  rewrite (@exec_all_match _ _ _ _ _ _ (length f') M)
    by (cbn [length]; rewrite length_app; lia).
  rewrite exec_all_skip. f_equal. f_equal.
  change (firstn (S (length f')) (BQ :: f' ++ rest))
    with (BQ :: firstn (length f') (f' ++ rest)).
  f_equal. rewrite <- (Nat.add_0_r (length f')).
  now rewrite firstn_app_2, app_nil_r.
Qed.

(** The first occurrence of a block after prose in which no fence starts is
    the block itself. *)
Lemma find_from_prose p f' rest :
  fence_free_before p = true ->
  find_from (fence ++ f') (p ++ (fence ++ f') ++ rest) = Some (length p).
Proof.
  induction p as [|a p IH]; intros N.
  - change ([] ++ (fence ++ f') ++ rest) with ((fence ++ f') ++ rest).
    now rewrite find_from_eq, starts_with_app.
  - pose proof (fence_free_no_start a p (f' ++ rest) N) as S.
    specialize (IH (proj2 (fence_free_cons _ _ N))).
    rewrite <- app_assoc in *.
    set (tail := fence ++ f' ++ rest) in *.
    change ((a :: p) ++ tail) with (a :: p ++ tail).
    rewrite find_from_eq.
    rewrite (starts_with_prefix_false fence f' _ S).
    now rewrite IH.
Qed.

Lemma rel_index_nat len n :
  (n <= len)%nat -> rel_index len (Z.of_nat n) = n.
Proof.
  intros Le. unfold rel_index.
  destruct (Z.ltb_spec (Z.of_nat n) 0); [lia|].
  rewrite Z.min_l by lia. apply Nat2Z.id.
Qed.

Lemma skipn_prefix (pre rest : str) : skipn (length pre) (pre ++ rest) = rest.
Proof.
  rewrite skipn_app, skipn_all, Nat.sub_diag. reflexivity.
Qed.

Lemma indexOf_after pre p f' rest :
  fence_free_before p = true ->
  indexOf (pre ++ p ++ (fence ++ f') ++ rest) (fence ++ f')
    (Z.of_nat (length pre))
  = Z.of_nat (length pre + length p).
Proof.
  intros N. unfold indexOf.
  rewrite Z.max_l by lia.
  rewrite Z.min_l by (rewrite length_app; lia).
  rewrite Nat2Z.id, skipn_prefix.
  now rewrite find_from_prose.
Qed.

Lemma slice_middle pre p rest :
  slice (pre ++ p ++ rest) (Z.of_nat (length pre))
    (Z.of_nat (length pre + length p)) = p.
Proof.
  unfold slice.
  rewrite !rel_index_nat by (rewrite !length_app; lia).
  rewrite skipn_prefix.
  replace (length pre + length p - length pre)%nat with (length p + 0)%nat by lia.
  now rewrite firstn_app_2, app_nil_r.
Qed.

Lemma slice_from_suffix pre rest :
  slice_from (pre ++ rest) (Z.of_nat (length pre)) = rest.
Proof.
  unfold slice_from.
  rewrite rel_index_nat by (rewrite length_app; lia).
  apply skipn_prefix.
Qed.


(** One round of the [forEach] of [formatResponse], at a block that follows
    prose in which no fence starts. *)
Lemma assemble_step text pre p f' rest html blocks index total result :
  text = pre ++ p ++ (fence ++ f') ++ rest ->
  fence_free_before p = true ->
  assemble text ((fence ++ f', html) :: blocks) index total
    (Z.of_nat (length pre)) result
  = assemble text blocks (S index) total
      (Z.of_nat (length (pre ++ p ++ (fence ++ f'))))
      (if (index =? total - 1)%nat
       then (result ++ proseBefore p ++ html) ++ proseAfter rest
       else result ++ proseBefore p ++ html).
Proof.
  intros -> N. cbn [assemble].
  rewrite indexOf_after by exact N.
  rewrite slice_middle.
  rewrite <- Nat2Z.inj_add.
  replace (length pre + length p + length (fence ++ f'))%nat
    with (length (pre ++ p ++ (fence ++ f')))
    by (rewrite !length_app; lia).
  replace (slice_from (pre ++ p ++ (fence ++ f') ++ rest)
             (Z.of_nat (length (pre ++ p ++ (fence ++ f')))))
    with rest
    by (rewrite <- (slice_from_suffix (pre ++ p ++ (fence ++ f')) rest) at 1;
        now rewrite <- !app_assoc).
  f_equal. unfold proseBefore, proseAfter.
  destruct (nonempty (trim (cleanResponse p)));
    destruct (index =? total - 1)%nat;
    destruct (nonempty (trim (cleanResponse rest)));
    rewrite <- ?app_assoc, ?app_nil_r; reflexivity.
Qed.



(** C10, witness: the flush of the sample run replaces the placeholder. *)
Lemma C10_flush_frame_witness :
  messages (displayResponse utcHost 60 streaming)
  = [greeting 0; userMessageOf (L "hi") 30; finalizedMessage (L "Hello") 30].
Proof.
  destruct (@C10_flush_frame utcHost 60 streaming) as (Re & _).
  - vm_compute. discriminate.
  - destruct (Re (placeholder 30)) as (Ln & Pre & La);
      [vm_compute; reflexivity..|].
    vm_compute. reflexivity.
Defined.


(** C8, witness: loading the conversation of the sample run. *)
Lemma C8_load_witness :
  messages (snd (handleLoadConversation (L "30") sent))
  = [greeting 0; userMessageOf (L "hi") 30; placeholder 30].
Proof.
  destruct (C8_load (L "30") sent) as (_ & Ld).
  destruct (Ld {| id := L "30";
                  conv_messages := [greeting 0; userMessageOf (L "hi") 30;
                                    placeholder 30];
                  snippet := L "hi"; conv_timestamp := 30 |})
    as (M & _); [vm_compute; reflexivity|].
  exact M.
Defined.

(** * Further properties *)

(** ** The matcher reads forward *)

Lemma suffix_of_refl s : suffix_of s s.
Proof. now exists []. Qed.

Lemma suffix_of_trans s1 s2 s3 :
  suffix_of s1 s2 -> suffix_of s2 s3 -> suffix_of s1 s3.
Proof.
  intros [a ->] [b ->]. exists (b ++ a). now rewrite app_assoc.
Qed.

Lemma suffix_of_length s1 s : suffix_of s1 s -> (length s1 <= length s)%nat.
Proof. intros [a ->]. rewrite length_app. lia. Qed.

Lemma repeat_matcher_through m g :
  succeeds_through m ->
  forall fuel min max s caps (k : cont) z,
    repeat_matcher m g k fuel min max s caps = Some z ->
    exists s1 c1, suffix_of s1 s /\ k s1 c1 = Some z.
Proof.
  intros Hm. induction fuel as [|fuel IH]; intros min max s caps k z;
    cbn [repeat_matcher]; [discriminate|].
  set (d := fun (s1 : str) (c1 : captures) =>
              if (min =? 0)%nat && (length s1 =? length s)%nat then None
              else repeat_matcher m g k fuel (pred min) (pred_max max) s1 c1).
  assert (D : m s caps d = Some z ->
              exists s1 c1, suffix_of s1 s /\ k s1 c1 = Some z).
  { intros E. destruct (Hm _ _ _ _ E) as (s1 & c1 & S1 & E1).
    unfold d in E1. destruct (_ && _); [discriminate|].
    destruct (IH _ _ _ _ _ _ E1) as (s2 & c2 & S2 & E2).
    exists s2, c2. split; [exact (suffix_of_trans S2 S1) | exact E2]. }
  assert (K : k s caps = Some z ->
              exists s1 c1, suffix_of s1 s /\ k s1 c1 = Some z)
    by (intros E; exists s, caps; split; [apply suffix_of_refl | exact E]).
  destruct (max_is_zero max); [exact K|].
  destruct (0 <? min)%nat; [exact D|].
  destruct g.
  - destruct (m s caps d) eqn:E; [intros [= <-]; now apply D | exact K].
  - destruct (k s caps) eqn:E; [intros [= <-]; now apply K | exact D].
Qed.

Lemma run_through fl r : succeeds_through (run fl r).
Proof.
  induction r as [c| | | | | |r1 IH1 r2 IH2|r1 IH1 r2 IH2|min max g r1 IH1
                 |i r1 IH1|r1 IH1| |];
    intros s caps k z; cbn [run].
  1-6: destruct s as [|a s]; cbn [one_char]; [discriminate|];
       destruct (char_matches _ _ _); [|discriminate];
       intros E; exists s, caps; split; [now exists [a] | exact E].
  - intros E. destruct (IH1 _ _ _ _ E) as (s1 & c1 & S1 & E1).
    destruct (IH2 _ _ _ _ E1) as (s2 & c2 & S2 & E2).
    exists s2, c2. split; [exact (suffix_of_trans S2 S1) | exact E2].
  - destruct (run fl r1 s caps k) eqn:E1.
    + intros [= <-]. exact (IH1 _ _ _ _ E1).
    + intros E2. exact (IH2 _ _ _ _ E2).
  - intros E. exact (@repeat_matcher_through _ g IH1 _ _ _ _ _ _ _ E).
  - intros E. destruct (IH1 _ _ _ _ E) as (s1 & c1 & S1 & E1).
    now exists s1, ((i, firstn (length s - length s1) s) :: c1).
  - destruct (run fl r1 s caps _) as [[? c1]|]; [|discriminate].
    intros E. exists s, c1. split; [apply suffix_of_refl | exact E].
  - destruct s; [|discriminate].
    intros E. exists [], caps. split; [apply suffix_of_refl | exact E].
  - intros E. exists s, caps. split; [apply suffix_of_refl | exact E].
Qed.

(** What an attempt leaves unread is a suffix of its input. *)
Lemma match_here_suffix fl r s s1 c1 :
  match_here fl r s = Some (s1, c1) -> suffix_of s1 s.
Proof.
  unfold match_here. intros E.
  destruct (run_through fl r _ _ _ E) as (s2 & c2 & S2 & [= <- <-]). exact S2.
Qed.

(** ** [cleanResponse] only deletes *)

Lemma Subseq_refl s : Subseq s s.
Proof. induction s; constructor; auto. Qed.

Lemma Subseq_trans a b c : Subseq a b -> Subseq b c -> Subseq a c.
Proof.
  intros Hab Hbc. revert a Hab.
  induction Hbc as [|x b c Hbc IH|x b c Hbc IH]; intros a Hab.
  - exact Hab.
  - inversion Hab; subst; constructor; auto.
  - constructor. auto.
Qed.

Lemma Subseq_length a b : Subseq a b -> (length a <= length b)%nat.
Proof. induction 1; cbn; lia. Qed.

Lemma Subseq_In x a b : Subseq a b -> In x a -> In x b.
Proof.
  induction 1 as [|c a b H IH|c a b H IH]; cbn; auto.
  intros [->|I]; auto.
Qed.

Lemma Subseq_app_l a b : Subseq b (a ++ b).
Proof. induction a; cbn; [apply Subseq_refl | now constructor]. Qed.

Lemma Subseq_app_r a b : Subseq a (a ++ b).
Proof.
  induction a as [|c a IH]; cbn.
  - induction b; constructor; auto.
  - now constructor.
Qed.

Lemma delete_all_Subseq fl r s : forall skip,
  Subseq (delete_all fl r skip s) s.
Proof.
  induction s as [|c s IH]; intros skip; cbn [delete_all]; [constructor|].
  destruct skip as [|n]; [|constructor; apply IH].
  destruct (match_here fl r (c :: s)) as [[s1 c1]|];
    [destruct (length (c :: s) - length s1)%nat|];
    constructor; apply IH.
Qed.

Lemma trimStart_split s :
  exists a, s = a ++ trimStart s /\ forallb is_space a = true.
Proof.
  induction s as [|c s (a & E & F)]; [now exists []|].
  cbn [trimStart]. destruct (is_space c) eqn:Sc.
  - exists (c :: a). cbn. rewrite Sc, F. split; [now f_equal | reflexivity].
  - now exists [].
Qed.

Lemma trimEnd_split s :
  exists b, s = trimEnd s ++ b /\ forallb is_space b = true.
Proof.
  unfold trimEnd. destruct (trimStart_split (rev s)) as (a & E & F).
  exists (rev a). split.
  - rewrite <- rev_app_distr, <- E. now rewrite rev_involutive.
  - rewrite forallb_forall in *. intros x Hx. apply F. now apply in_rev.
Qed.

Lemma trim_Subseq s : Subseq (trim s) s.
Proof.
  unfold trim.
  destruct (trimStart_split s) as (a & E & _).
  destruct (trimEnd_split (trimStart s)) as (b & E' & _).
  rewrite E at 2. rewrite E' at 2.
  eapply Subseq_trans; [apply Subseq_app_r | apply Subseq_app_l].
Qed.

(** X1.  [cleanResponse] only deletes: its output is the input with some
    characters left out, in the same order, so it is never longer than the
    input and holds no character that the input does not hold. *)
Theorem cleanResponse_only_deletes (text : str) :
  Subseq (cleanResponse text) text
  /\ (length (cleanResponse text) <= length text)%nat
  /\ (forall c, In c (cleanResponse text) -> In c text).
Proof.
  assert (S : Subseq (cleanResponse text) text).
  { unfold cleanResponse, replace_all.
    repeat (eapply Subseq_trans;
            [first [apply trim_Subseq | apply delete_all_Subseq]|]).
    apply Subseq_refl. }
  split; [exact S|]. split.
  - now apply Subseq_length.
  - intros c. now apply Subseq_In.
Qed.

(** ** [cleanResponse] leaves no backquote *)

Lemma run_Group fl i r s caps k :
  run fl (Group i r) s caps k
  = run fl r s caps
      (fun s1 c1 => k s1 ((i, firstn (length s - length s1) s) :: c1)).
Proof. reflexivity. Qed.

Lemma run_Alt fl r1 r2 s caps k :
  run fl (Alt r1 r2) s caps k
  = match run fl r1 s caps k with
    | Some z => Some z
    | None => run fl r2 s caps k
    end.
Proof. reflexivity. Qed.

Lemma run_Rep fl min max g r s caps k :
  run fl (Rep min max g r) s caps k
  = repeat_matcher (run fl r) g k (S (min + length s)) min max s caps.
Proof. reflexivity. Qed.

(** The first of the iterations that the minimum requires. *)
Lemma repeat_matcher_required m g k fuel min max s caps :
  max_is_zero max = false ->
  repeat_matcher m g k (S fuel) (S min) max s caps
  = m s caps (fun s1 c1 => repeat_matcher m g k fuel min (pred_max max) s1 c1).
Proof. intros E. cbn [repeat_matcher]. now rewrite E. Qed.

(** A greedy repetition whose minimum is reached succeeds when its
    continuation always does. *)
Lemma repeat_matcher_greedy_total m (k : cont) fuel max s caps :
  (forall s1 c1, k s1 c1 <> None) ->
  repeat_matcher m Greedy k (S fuel) 0 max s caps <> None.
Proof.
  intros K. cbn [repeat_matcher].
  destruct (max_is_zero max); [apply K|].
  cbn [Nat.ltb Nat.leb].
  destruct (m s caps _); [discriminate | apply K].
Qed.

(** At a backquote the markup pattern matches, and takes the backquote. *)
Lemma markup_at_backquote s :
  exists s1 c1,
    match_here no_flags re_markup (BQ :: s) = Some (s1, c1)
    /\ suffix_of s1 s.
Proof.
  unfold match_here.
  change re_markup
    with (Group 1 (Alt (lit (L "**"))
                     (Alt (Rep 1 (Some 3%nat) Greedy (Chr BQ))
                        (Rep 2 None Greedy (Chr NL))))).
  rewrite run_Group, run_Alt.
  rewrite run_lit_fail by reflexivity.
  rewrite run_Alt, run_Rep.
  rewrite repeat_matcher_required by reflexivity.
  rewrite run_Chr.
  change (1 + length (BQ :: s))%nat with (S (S (length s))).
  match goal with
  | |- context [match ?X with Some _ => _ | None => _ end] =>
      destruct X as [z|] eqn:E
  end.
  - destruct (@repeat_matcher_through _ Greedy (run_through no_flags (Chr BQ))
                _ _ _ _ _ _ _ E) as (s1 & c1 & S1 & K1).
    injection K1 as <-.
    now exists s1, ((1%nat, firstn (length (BQ :: s) - length s1) (BQ :: s)) :: c1).
  - exfalso. revert E. now apply repeat_matcher_greedy_total.
Qed.

Lemma markup_deletes_backquotes s : forall skip,
  ~ In BQ (delete_all no_flags re_markup skip s).
Proof.
  induction s as [|c s IH]; intros skip; cbn [delete_all]; [intros []|].
  destruct skip as [|n]; [|apply IH].
  destruct (ascii_dec c BQ) as [->|N].
  - destruct (markup_at_backquote s) as (s1 & c1 & M & S1).
    rewrite M. apply suffix_of_length in S1.
    cbn [length].
    destruct (S (length s) - length s1)%nat eqn:D; [lia|]. apply IH.
  - destruct (match_here no_flags re_markup (c :: s)) as [[s1 c1]|];
      [destruct (length (c :: s) - length s1)%nat|];
      try apply IH; (intros [E|I]; [congruence | exact (IH _ I)]).
Qed.

(** X2.  The output of [cleanResponse] holds no backquote, whatever the
    input: the markup stage deletes every backquote and the later stages
    only delete. *)
Theorem cleanResponse_no_backquote (text : str) :
  ~ In BQ (cleanResponse text).
Proof.
  unfold cleanResponse, replace_all. intros I.
  repeat (match goal with
          | H : In BQ (trim _) |- _ =>
              apply (Subseq_In _ (trim_Subseq _)) in H
          | H : In BQ (delete_all _ ?r _ _) |- _ =>
              lazymatch r with
              | re_markup => fail
              | _ => apply (Subseq_In _ (delete_all_Subseq _ _ _ _)) in H
              end
          end).
  exact (markup_deletes_backquotes _ _ I).
Qed.

(** ** [cleanResponse] is trimmed *)

Lemma trimStart_clean s : starts_clean (trimStart s).
Proof.
  induction s as [|c s IH]; cbn; [exact I|].
  destruct (is_space c) eqn:E; [exact IH | exact E].
Qed.

Lemma trimStart_of_clean s : starts_clean s -> trimStart s = s.
Proof. destruct s as [|c s]; cbn; [reflexivity|]. now intros ->. Qed.

Lemma trimStart_snoc s c :
  is_space c = false -> trimStart (s ++ [c]) = trimStart s ++ [c].
Proof.
  intros E. induction s as [|a s IH]; cbn; [now rewrite E|].
  now destruct (is_space a).
Qed.

Lemma trimEnd_clean s : starts_clean s -> starts_clean (trimEnd s).
Proof.
  destruct s as [|c s]; [intros _; exact I|].
  cbn [starts_clean]. intros E. unfold trimEnd. cbn [rev].
  rewrite trimStart_snoc by exact E.
  rewrite rev_app_distr. exact E.
Qed.

Lemma trim_idempotent s : trim (trim s) = trim s.
Proof.
  unfold trim.
  rewrite (trimStart_of_clean _ (trimEnd_clean _ (trimStart_clean s))).
  unfold trimEnd. rewrite rev_involutive.
  now rewrite (trimStart_of_clean _ (trimStart_clean (rev (trimStart s)))).
Qed.

(** X3.  The output of [cleanResponse] is trimmed: it neither begins nor
    ends with white space, so the [.trim()] that [formatResponse] applies to
    it again changes nothing. *)
Theorem cleanResponse_trimmed (text : str) :
  trim (cleanResponse text) = cleanResponse text
  /\ starts_clean (cleanResponse text)
  /\ starts_clean (rev (cleanResponse text)).
Proof.
  unfold cleanResponse. set (x := replace_all no_flags re_numbered _).
  split; [apply trim_idempotent|]. split.
  - apply trimEnd_clean, trimStart_clean.
  - unfold trim, trimEnd. rewrite rev_involutive. apply trimStart_clean.
Qed.

(** ** Texts without a complete code block *)

Lemma starts_with_split f : forall s,
  starts_with f s = true -> exists s0, s = f ++ s0.
Proof.
  induction f as [|a f IH]; intros s E; [now exists s|].
  destruct s as [|b s]; [discriminate|]. cbn [starts_with] in E.
  destruct (ascii_dec a b) as [<-|]; [|discriminate].
  destruct (IH _ E) as (s0 & ->). now exists s0.
Qed.

Lemma find_from_first f pre : forall x,
  exists n, find_from f (pre ++ f ++ x) = Some n /\ (n <= length pre)%nat.
Proof.
  induction pre as [|a pre IH]; intros x.
  - exists 0%nat. cbn [app]. rewrite find_from_eq, starts_with_app. now split.
  - change ((a :: pre) ++ f ++ x) with (a :: pre ++ f ++ x).
    rewrite find_from_eq.
    destruct (starts_with f (a :: pre ++ f ++ x)).
    + exists 0%nat. split; [reflexivity | cbn; lia].
    + destruct (IH x) as (n & -> & Le). exists (S n). split; [reflexivity|].
      cbn. lia.
Qed.

Lemma find_from_none_suffix f a : forall b,
  find_from f (a ++ b) = None -> find_from f b = None.
Proof.
  induction a as [|c a IH]; intros b E; [exact E|].
  change ((c :: a) ++ b) with (c :: a ++ b) in E.
  rewrite find_from_eq in E.
  destruct (starts_with f (c :: a ++ b)); [discriminate|].
  apply IH. now destruct (find_from f (a ++ b)).
Qed.

Lemma no_fence_suffix a b : no_fence (a ++ b) = true -> no_fence b = true.
Proof.
  unfold no_fence. intros E.
  rewrite (find_from_none_suffix fence a b); [reflexivity|].
  now destruct (find_from fence (a ++ b)).
Qed.

(** A match of [codeBlockRegex] begins with a fence and holds a second
    one. *)
Lemma match_needs_two_fences s z :
  match_here no_flags codeBlockRegex s = Some z ->
  exists s0, s = fence ++ s0 /\ no_fence s0 = false.
Proof.
  unfold match_here.
  change codeBlockRegex
    with (Cat (lit fence)
            (Cat (Group 1 (star Greedy Word))
               (Cat (Chr NL) (Cat (Group 2 (star Lazy Any)) (lit fence))))).
  intros E. rewrite run_Cat in E.
  destruct (starts_with fence s) eqn:S;
    [|rewrite run_lit_fail in E by auto; discriminate].
  destruct (starts_with_split _ _ S) as (s0 & ->).
  exists s0. split; [reflexivity|].
  rewrite run_lit, run_Cat in E.
  destruct (run_through _ _ _ _ _ E) as (s1 & c1 & S1 & E1).
  rewrite run_Cat in E1.
  destruct (run_through _ _ _ _ _ E1) as (s2 & c2 & S2 & E2).
  rewrite run_Cat in E2.
  destruct (run_through _ _ _ _ _ E2) as (s3 & c3 & S3 & E3).
  destruct (starts_with fence s3) eqn:S';
    [|rewrite run_lit_fail in E3 by auto; discriminate].
  destruct (starts_with_split _ _ S') as (s4 & ->).
  destruct (suffix_of_trans S3 (suffix_of_trans S2 S1)) as (pre & ->).
  unfold no_fence.
  destruct (find_from_first fence pre s4) as (n & -> & _). reflexivity.
Qed.

Lemma exec_all_none fl r s :
  (forall pre s', s = pre ++ s' -> match_here fl r s' = None) ->
  exec_all fl r 0 s = [].
Proof.
  induction s as [|c s IH]; intros N; [reflexivity|].
  rewrite exec_all_no_match by (apply (N []); reflexivity).
  apply IH. intros pre s' ->. apply (N (c :: pre)). reflexivity.
Qed.

Lemma codeBlockMatches_one_fence text :
  at_most_one_fence text = true -> codeBlockMatches text = [].
Proof.
  intros A. apply exec_all_none. intros pre s' ->.
  destruct (match_here no_flags codeBlockRegex s') as [z|] eqn:M;
    [|reflexivity].
  exfalso. destruct (match_needs_two_fences _ M) as (s0 & -> & F).
  unfold at_most_one_fence in A.
  destruct (find_from_first fence pre s0) as (n & E & Le).
  rewrite E in A.
  rewrite app_assoc, skipn_app in A.
  replace (n + 3 - length (pre ++ fence))%nat with 0%nat in A
    by (rewrite length_app; cbn; lia).
  cbn [skipn] in A. apply no_fence_suffix in A. congruence.
Qed.

(** X4.  A text with at most one fence (no fence at all, or a block that is
    opened and never closed) holds no code block: unless the date branch
    answers, the output is the cleaned text, and no identifier is drawn. *)
Theorem formatResponse_unterminated_block (h : Host) (isDateQuery : bool)
  (drawn : nat) (text : str) :
  at_most_one_fence text = true ->
  (if isDateQuery then dateResponse h text else None) = None ->
  formatResponse h isDateQuery drawn text = cleanResponse text
  /\ formatDraws h isDateQuery text = 0%nat.
Proof.
  intros A D. unfold formatResponse, formatDraws.
  now rewrite D, (codeBlockMatches_one_fence _ A).
Qed.

(** ** Any number of code blocks *)

Lemma codeBlockMatches_pieces pieces last :
  forallb well_fenced pieces = true -> no_fence last = true ->
  codeBlockMatches (textOf pieces last) = map matchOf pieces.
Proof.
  intros W N. induction pieces as [|[[p lang] body] rest IH].
  - now apply codeBlockMatches_no_fence.
  - cbn [forallb well_fenced] in W.
    apply andb_true_iff in W. destruct W as [W W'].
    apply andb_true_iff in W. destruct W as [W Wb].
    apply andb_true_iff in W. destruct W as [Wp Wl].
    cbn [textOf map matchOf].
    unfold fenced at 1. rewrite <- !app_assoc.
    rewrite codeBlockMatches_prose by exact Wp.
    change (fence ++ lang ++ [NL] ++ body ++ fence ++ textOf rest last)
      with (fence ++ lang ++ [NL] ++ body ++ fence ++ textOf rest last).
    replace (fence ++ lang ++ [NL] ++ body ++ fence ++ textOf rest last)
      with (fenced lang body ++ textOf rest last)
      by (unfold fenced; now rewrite <- !app_assoc).
    rewrite codeBlockMatches_fenced by auto.
    now rewrite IH.
Qed.

Lemma codeBlocksOf_pieces h pieces : forall drawn,
  codeBlocksOf h drawn (map matchOf pieces)
  = map (fun ix =>
           let '(p, lang, body) := snd ix in
           (fenced lang body,
            codeBlockHtml (langOf lang) (trim body) (codeIdOf h (fst ix))))
        (combine (seq drawn (length pieces)) pieces).
Proof.
  induction pieces as [|[[p lang] body] rest IH]; intros drawn; [reflexivity|].
  cbn [map matchOf codeBlocksOf length seq combine fst snd].
  now rewrite IH.
Qed.

Lemma assemble_pieces h text last pieces :
  forallb well_fenced pieces = true ->
  forall drawn pre index total result,
    text = pre ++ textOf pieces last ->
    total = (index + length pieces)%nat ->
    assemble text (codeBlocksOf h drawn (map matchOf pieces)) index total
      (Z.of_nat (length pre)) result
    = match pieces with
      | [] => result
      | _ :: _ => result ++ rendered h drawn pieces last
      end.
Proof.
  induction pieces as [|[[p lang] body] rest IH];
    intros W drawn pre index total result T Tot; [reflexivity|].
  cbn [forallb well_fenced] in W.
  apply andb_true_iff in W. destruct W as [W W'].
  apply andb_true_iff in W. destruct W as [W Wb].
  apply andb_true_iff in W. destruct W as [Wp Wl].
  cbn [map matchOf codeBlocksOf].
  set (f' := lang ++ [NL] ++ body ++ fence).
  change (fenced lang body) with (fence ++ f').
  set (html := codeBlockHtml _ _ _).
  rewrite (@assemble_step text pre p f' (textOf rest last))
    by (auto; rewrite T; cbn [textOf]; unfold fenced, f';
        now rewrite <- !app_assoc).
  rewrite (IH W' (S drawn) (pre ++ p ++ fence ++ f') (S index) total)
    by (first [ rewrite T; cbn [textOf]; unfold fenced, f';
                now rewrite <- !app_assoc
              | cbn [length] in Tot; lia ]).
  cbn [rendered]. fold f'.
  change (if nonempty lang then lang else L "text") with (langOf lang) in html.
  fold html.
  destruct rest as [|x rest].
  - replace (index =? total - 1)%nat with true
      by (symmetry; apply Nat.eqb_eq; cbn in Tot; lia).
    cbn [textOf rendered]. now rewrite <- !app_assoc.
  - replace (index =? total - 1)%nat with false
      by (symmetry; apply Nat.eqb_neq; cbn in Tot; lia).
    now rewrite <- !app_assoc.
Qed.

(** X5.  A text made of one or more pieces (prose, then a fenced block whose
    label is made of word characters) and a last stretch of prose, in which
    the only fences are those of the blocks, is rendered piece by piece in
    source order: the cleaned prose, then the block with its label (or
    [text] for an empty label), its trimmed body and the next identifier;
    the cleaned last prose comes at the end.  One identifier is drawn per
    block. *)
Theorem formatResponse_pieces (h : Host) (isDateQuery : bool) (drawn : nat)
  (pieces : list Piece) (last : str) :
  pieces <> [] ->
  forallb well_fenced pieces = true -> no_fence last = true ->
  (if isDateQuery then dateResponse h (textOf pieces last) else None) = None ->
  formatResponse h isDateQuery drawn (textOf pieces last)
  = rendered h drawn pieces last
  /\ formatDraws h isDateQuery (textOf pieces last) = length pieces.
Proof.
  intros Ne W N D. unfold formatResponse, formatDraws.
  rewrite D, (codeBlockMatches_pieces _ _ W N). split.
  - pose proof (@assemble_pieces h (textOf pieces last) last pieces W drawn []
                  0%nat (length (codeBlocksOf h drawn (map matchOf pieces)))
                  [] eq_refl) as A.
    cbn [length] in A. change (Z.of_nat 0) with 0 in A.
    rewrite A by (rewrite codeBlocksOf_pieces, length_map, length_combine,
                    length_seq; lia).
    destruct pieces as [|x rest]; [contradiction|].
    now destruct x as [[p lang] body].
  - now rewrite length_map.
Qed.

(** X4, witness: an opened block without closing fence is shown as prose. *)
Lemma formatResponse_unterminated_block_witness :
  formatResponse utcHost false 0 unterminated
  = L "Run this: python" ++ [NL] ++ L "print(1)".
Proof.
  refine (eq_trans
            (proj1 (@formatResponse_unterminated_block utcHost false 0
                      unterminated _ _)) _);
    vm_compute; reflexivity.
Defined.

(** X5, witness: three blocks, the second without label. *)
Lemma formatResponse_pieces_witness :
  formatResponse utcHost false 4 (textOf threePieces (L "Done"))
  = L "First:<br><br>"
    ++ codeBlockHtml (L "python") (L "print(1)") (L "code-000000004")
    ++ L "second:<br><br>"
    ++ codeBlockHtml (L "text") (L "ls -l") (L "code-000000005")
    ++ codeBlockHtml (L "js") (L "let x = " ++ [BQ] ++ L "y" ++ [BQ])
         (L "code-000000006")
    ++ L "<br><br>Done".
Proof.
  refine (eq_trans
            (proj1 (@formatResponse_pieces utcHost false 4 threePieces
                      (L "Done") _ _ _ _)) _);
    try (vm_compute; reflexivity).
  discriminate.
Defined.

(** ** The calendar *)

Lemma days_in_month_le_31 y m : JSDate.days_in_month y m <= 31.
Proof.
  unfold JSDate.days_in_month.
  repeat match goal with |- context [if ?b then _ else _] => destruct b end;
    lia.
Qed.

(** The Gregorian calendar repeats every 400 years, which are 146097
    days. *)
Lemma days_from_civil_period y m d k :
  JSDate.days_from_civil (y + 400 * k) m d
  = JSDate.days_from_civil y m d + 146097 * k.
Proof.
  unfold JSDate.days_from_civil. cbv zeta.
  destruct (m <=? 2).
  - replace (y + 400 * k - 1) with ((y - 1) + k * 400) by ring.
    rewrite Z.div_add by lia.
    replace (y - 1 + k * 400 - ((y - 1) / 400 + k) * 400)
      with (y - 1 - (y - 1) / 400 * 400) by ring.
    ring.
  - replace (y + 400 * k) with (y + k * 400) by ring.
    rewrite Z.div_add by lia.
    replace (y + k * 400 - (y / 400 + k) * 400)
      with (y - y / 400 * 400) by ring.
    ring.
Qed.

Lemma civil_from_days_period z k :
  JSDate.civil_from_days (z + 146097 * k)
  = let '(y, m, d) := JSDate.civil_from_days z in (y + 400 * k, m, d).
Proof.
  unfold JSDate.civil_from_days. cbv zeta.
  replace (z + 146097 * k + 719468) with ((z + 719468) + k * 146097) by ring.
  rewrite Z.div_add by lia.
  replace (z + 719468 + k * 146097 - ((z + 719468) / 146097 + k) * 146097)
    with (z + 719468 - (z + 719468) / 146097 * 146097) by ring.
  set (doe := z + 719468 - (z + 719468) / 146097 * 146097).
  set (yoe := (doe - doe / 1460 + doe / 36524 - doe / 146096) / 365).
  set (mp := (5 * (doe - (365 * yoe + yoe / 4 - yoe / 100)) + 2) / 153).
  cbv zeta.
  destruct ((if mp <? 10 then mp + 3 else mp - 9) <=? 2); f_equal; f_equal; ring.
Qed.

Lemma days_in_month_period y m k :
  JSDate.days_in_month (y + 400 * k) m = JSDate.days_in_month y m.
Proof.
  unfold JSDate.days_in_month, JSDate.is_leap.
  replace (y + 400 * k) with (y + (100 * k) * 4) at 1 by ring.
  replace (y + 400 * k) with (y + (4 * k) * 100) at 1 by ring.
  replace (y + 400 * k) with (y + k * 400) by ring.
  now rewrite !Z.mod_add by lia.
Qed.

Lemma years_ok_400 y : (y < 400)%nat -> year_ok (Z.of_nat y) = true.
Proof.
  intros Y.
  assert (A : forallb (fun y => year_ok (Z.of_nat y)) (seq 0 400) = true)
    by (vm_compute; reflexivity).
  rewrite forallb_forall in A. apply A, in_seq. lia.
Qed.

Lemma roundtrip_in_period y m d :
  0 <= y < 400 -> valid_date y m d ->
  JSDate.civil_from_days (JSDate.days_from_civil y m d) = (y, m, d).
Proof.
  intros Y ((M1 & M2) & D1 & D2).
  pose proof (days_in_month_le_31 y m) as D31.
  pose proof (@years_ok_400 (Z.to_nat y) ltac:(lia)) as Ay.
  rewrite Z2Nat.id in Ay by lia.
  unfold year_ok in Ay. rewrite forallb_forall in Ay.
  specialize (Ay (Z.to_nat m)). rewrite Z2Nat.id in Ay by lia.
  assert (Am : month_ok y m = true) by (apply Ay, in_seq; lia).
  unfold month_ok in Am. rewrite forallb_forall in Am.
  specialize (Am (Z.to_nat d)). rewrite Z2Nat.id in Am by lia.
  assert (Ad : (JSDate.days_in_month y m <? d) || roundtrip_ok y m d = true)
    by (apply Am, in_seq; lia).
  destruct (Z.ltb_spec (JSDate.days_in_month y m) d); [lia|].
  cbn [orb] in Ad. unfold roundtrip_ok in Ad.
  destruct (JSDate.civil_from_days (JSDate.days_from_civil y m d))
    as [[y' m'] d'].
  apply andb_true_iff in Ad. destruct Ad as [Ad Ed].
  apply andb_true_iff in Ad. destruct Ad as [Ey Em].
  apply Z.eqb_eq in Ey, Em, Ed. congruence.
Qed.

(** X6.  Day numbers and civil dates agree: for every valid date of the
    Gregorian calendar, in any year, the date of its day number is the date
    itself. *)
Theorem civil_roundtrip (y m d : Z) :
  valid_date y m d ->
  JSDate.civil_from_days (JSDate.days_from_civil y m d) = (y, m, d).
Proof.
  intros V.
  pose proof (Z.div_mod y 400 ltac:(lia)) as E.
  pose proof (Z.mod_pos_bound y 400 ltac:(lia)) as B.
  set (y0 := y mod 400) in *. set (k := y / 400) in *.
  replace y with (y0 + 400 * k) in * by lia.
  rewrite days_from_civil_period, civil_from_days_period.
  rewrite roundtrip_in_period; [reflexivity | exact B |].
  unfold valid_date in *. now rewrite days_in_month_period in V.
Qed.

(** ** The date branch on an ISO date *)

Lemma days_from_civil_day y m d :
  JSDate.days_from_civil y m d - 1 = JSDate.days_from_civil y m (d - 1).
Proof. unfold JSDate.days_from_civil. cbv zeta. ring. Qed.

Lemma parse_valid_iso h s y m d :
  JSDate.iso_date s = Some (y, m, d) -> valid_date y m d ->
  JSDate.parse h s = Some (JSDate.days_from_civil y m d * JSDate.msPerDay).
Proof.
  intros E ((M1 & M2) & D1 & D2). unfold JSDate.parse. rewrite E.
  destruct (Z.leb_spec 1 m); [|lia]. destruct (Z.leb_spec m 12); [|lia].
  destruct (Z.leb_spec 1 d); [|lia].
  destruct (Z.leb_spec d (JSDate.days_in_month y m)); [|lia].
  reflexivity.
Qed.

Lemma local_civil_day_before h t day :
  t = day * JSDate.msPerDay ->
  - JSDate.msPerDay <= localTZA h t < 0 ->
  JSDate.local_civil h t = JSDate.civil_from_days (day - 1).
Proof.
  intros -> B. unfold JSDate.local_civil. f_equal.
  symmetry.
  apply (Z.div_unique_pos _ _ _
           (JSDate.msPerDay + localTZA h (day * JSDate.msPerDay)));
    unfold JSDate.msPerDay in *; lia.
Qed.

(** X7.  With the date hint set, when the first date-like match of the text
    is a valid ISO date [y]-[m]-[d], the date branch answers with that date
    as [DD/MM/YYYY] on a host at or ahead of UTC; on a host behind UTC it
    answers with the day before (for a day of the month after the first). *)
Theorem dateResponse_iso (h : Host) (text : str) (f : found) (y m d : Z) :
  exec no_flags re_date text = Some f ->
  JSDate.iso_date (matched f) = Some (y, m, d) ->
  valid_date y m d ->
  let t := JSDate.days_from_civil y m d * JSDate.msPerDay in
  (0 <= localTZA h t < JSDate.msPerDay ->
   dateResponse h text = Some (todaysDate d m y))
  /\ (- JSDate.msPerDay <= localTZA h t < 0 -> 2 <= d ->
      dateResponse h text = Some (todaysDate (d - 1) m y)).
Proof.
  intros E I V t. unfold dateResponse. rewrite E.
  rewrite (parse_valid_iso h _ I V). fold t.
  unfold JSDate.getDate, JSDate.getMonth, JSDate.getFullYear, todaysDate.
  split.
  - intros B. rewrite (@local_civil_same_day h t _ eq_refl B).
    rewrite (civil_roundtrip V). cbn [fst snd].
    now replace (m - 1 + 1) with m by ring.
  - intros B D2. rewrite (@local_civil_day_before h t _ eq_refl B).
    rewrite days_from_civil_day.
    assert (V' : valid_date y m (d - 1)) by (unfold valid_date in *; lia).
    rewrite (civil_roundtrip V'). cbn [fst snd].
    now replace (m - 1 + 1) with m by ring.
Qed.

(** X7, witness: the last day of a year, on the UTC host and five hours
    behind. *)
Lemma dateResponse_iso_witness :
  formatResponse utcHost true 0 (L "Meeting on 2023-12-31 at noon")
  = L "Today's date is 31/12/2023"
  /\ formatResponse westHost true 0 (L "Meeting on 2023-12-31 at noon")
     = L "Today's date is 30/12/2023".
Proof.
  assert (E : exec no_flags re_date (L "Meeting on 2023-12-31 at noon")
              = Some {| before := L "Meeting on "; matched := L "2023-12-31";
                        groups := [(2%nat, L "2023-12-31")];
                        rest := L " at noon" |})
    by (vm_compute; reflexivity).
  assert (V : valid_date 2023 12 31) by (vm_compute; intuition discriminate).
  split.
  - destruct (@dateResponse_iso utcHost _ _ 2023 12 31 E eq_refl V) as (A & _).
    unfold formatResponse. rewrite A; [vm_compute; reflexivity|].
    vm_compute. split; [discriminate | reflexivity].
  - destruct (@dateResponse_iso westHost _ _ 2023 12 31 E eq_refl V) as (_ & A).
    unfold formatResponse. rewrite A; [vm_compute; reflexivity | |].
    + vm_compute. split; [discriminate | reflexivity].
    + vm_compute. discriminate.
Defined.

(** X6, witness: a leap day in a year divisible by 400. *)
Lemma civil_roundtrip_witness :
  JSDate.civil_from_days (JSDate.days_from_civil 2400 2 29) = (2400, 2, 29).
Proof.
  apply civil_roundtrip. vm_compute. intuition discriminate.
Defined.

(** ** Reopening the connection *)

(** X8.  When a socket opens, what was buffered before is dropped and never
    shown: the buffer and the date hint are clear, the message list is as it
    was, and no timer that fires afterwards and no end signal changes the
    message list until a new fragment arrives. *)
Theorem onopen_discards_partial (h : Host) (now : Z) (ws : nat) (s : State) :
  let s' := step h now (SocketOpen ws) s in
  accumulatedResponse s' = []
  /\ isDateQuery s' = false
  /\ reconnectAttempts s' = 0%nat
  /\ messages s' = messages s
  /\ (forall later ev, flush_attempt ev ->
        messages (step h later ev s') = messages s).
Proof.
  cbv zeta. repeat split.
  intros later ev F.
  now rewrite no_second_flush.
Qed.

(** ** One idle timer *)

Lemma filter_no_idle s :
  no_idle_timer s -> filter is_idle (timers s) = [].
Proof.
  unfold no_idle_timer. induction (timers s) as [|t l IH]; intros N;
    [reflexivity|].
  cbn [filter]. unfold is_idle at 1.
  destruct (kind t) eqn:K.
  - elim (N t (or_introl eq_refl) K).
  - apply IH. intros t' Ht'. apply N. now right.
Qed.

(** X9.  After a fragment exactly one idle timer is pending: the one the
    fragment armed, due one threshold after its arrival, and it is the one
    that [timeoutRef.current] names; the timer of the fragment before is
    gone. *)
Theorem chunk_rearms_idle_timer (h : Host) (now : Z) (data : Envelope)
  (s : State) :
  idle_tracked s -> type data = L "ai_chunk" ->
  let s' := ws_onmessage h now (Some data) s in
  filter is_idle (timers s') = [idleTimer (nextTimer s) now]
  /\ timeoutRef s' = Some (nextTimer s)
  /\ lastChunkTimeRef s' = Some now.
Proof.
  intros I Ty s'.
  destruct (ws_onmessage_chunk h now data s Ty) as (_ & _ & Lc & R & T & _).
  fold s' in Lc, R, T. split; [|now split].
  rewrite T, filter_app, (filter_no_idle (clearIdleTimeout_no_idle I)).
  reflexivity.
Qed.

(** X9, witness: the second fragment of the sample run. *)
Lemma chunk_rearms_idle_timer_witness :
  filter is_idle (timers streaming) = [idleTimer 2 50].
Proof.
  set (s1 := run_events utcHost (deliver 0 [(40, L "Hel")]) sent).
  assert (T : timers s1 = [idleTimer 1 40]) by (vm_compute; reflexivity).
  assert (R : timeoutRef s1 = Some 1%nat) by (vm_compute; reflexivity).
  assert (N : nextTimer s1 = 2%nat) by (vm_compute; reflexivity).
  destruct (@chunk_rearms_idle_timer utcHost 50
              {| type := L "ai_chunk"; payload := L "lo" |} s1) as (F & _).
  - intros t Ht K. rewrite T in Ht. destruct Ht as [<-|[]]. exact R.
  - reflexivity.
  - rewrite N in F. exact F.
Defined.

(** ** What network events do to the message list *)

Lemma displayResponse_touched h now s :
  touched (messages s) (messages (displayResponse h now s)).
Proof.
  unfold displayResponse. destruct (negb _); [now left|].
  right. right. cbn. eauto.
Qed.

Lemma network_step_touched h now ev s :
  from_network ev -> touched (messages s) (messages (step h now ev s)).
Proof.
  intros N. destruct ev as [ws|ws data|ws|ws|i|text| |cid| |];
    try contradiction; cbn [step].
  - now left.
  - destruct data as [data|]; [|now left]. unfold ws_onmessage.
    destruct (str_eqb (type data) (L "ai_chunk")) eqn:Ty.
    + left. apply str_eqb_eq in Ty.
      destruct (ws_onmessage_chunk h now data s Ty) as (_ & _ & _ & _ & _ & _ & M & _).
      unfold ws_onmessage in M. rewrite Ty in M.
      now replace (str_eqb (L "ai_chunk") (L "ai_chunk")) with true in M
        by reflexivity.
    + destruct (str_eqb (type data) (L "error")); [right; left; cbn; eauto|].
      destruct (str_eqb (type data) (L "model_connected")); [now left|].
      destruct (str_eqb (type data) (L "stream_end")); [|now left].
      destruct (clearIdleTimeout_fields s) as (M & _). rewrite <- M.
      apply displayResponse_touched.
  - now left.
  - unfold ws_onclose. destruct (_ <? _)%nat; [now left|].
    right. left. cbn. eauto.
  - unfold fire. destruct (pending i s); [|now left].
    destruct (due _ <=? now); [|now left].
    destruct (kind _); [|now left].
    unfold idleTimeout. cbn [lastChunkTimeRef clearTimeout set_timers].
    destruct (lastChunkTimeRef s); [|now left].
    destruct (_ && _); [|now left].
    apply (displayResponse_touched h now (clearTimeout i s)).
Qed.

(** X10.  An event from a socket or a timer never removes a message and adds
    at most one; it leaves every message in place and unchanged, except that
    it may rewrite the last message when that is an assistant message.  In
    particular no user message is ever changed by the network. *)
Theorem network_keeps_messages (h : Host) (now : Z) (ev : Event) (s : State) :
  from_network ev ->
  let ms := messages s in
  let ms' := messages (step h now ev s) in
  (length ms <= length ms' <= length ms + 1)%nat
  /\ (forall i m, nth_error ms i = Some m ->
        role m <> assistant \/ (i + 1 < length ms)%nat ->
        nth_error ms' i = Some m).
Proof.
  intros N ms ms'.
  assert (Snoc : forall x, (length ms <= length (ms ++ [x]) <= length ms + 1)%nat
                  /\ (forall i m, nth_error ms i = Some m ->
                        nth_error (ms ++ [x]) i = Some m)).
  { intros x. rewrite length_app. cbn. split; [lia|].
    intros i m E. rewrite nth_error_app1; [exact E|].
    apply nth_error_Some. congruence. }
  destruct (network_step_touched h now ev s N) as [E|[(x & E)|(f & t & E)]];
    fold ms ms' in E; rewrite E.
  - split; [lia | auto].
  - destruct (Snoc x) as (L1 & P). split; [exact L1 | intros; now apply P].
  - unfold finalize.
    destruct (lastMessageOf ms) as [lastMessage|] eqn:La;
      [destruct (Role_eq_dec (role lastMessage) assistant) as [R|R]|];
      try (destruct (Snoc {| role := assistant; content := f; timestamp := t;
                             isStreaming := Some false |}) as (L1 & P);
           split; [exact L1 | intros; now apply P]).
    pose proof (lastMessageOf_split _ La) as Sp.
    assert (Ln : (length ms = length (firstn (length ms - 1) ms) + 1)%nat)
      by (rewrite Sp at 1; now rewrite length_app).
    split; [rewrite length_app; cbn; lia|].
    intros i m E' C.
    assert (Hi : (i < length ms - 1)%nat).
    { destruct C as [C|C]; [|lia].
      assert (i < length ms)%nat by (apply nth_error_Some; congruence).
      destruct (Nat.eq_dec i (length ms - 1)) as [->|]; [|lia].
      unfold lastMessageOf in La. congruence. }
    rewrite nth_error_app1 by lia.
    rewrite nth_error_firstn. apply Nat.ltb_lt in Hi. now rewrite Hi.
Qed.

(** X10, witness: the flush of the sample run keeps the user message. *)
Lemma network_keeps_messages_witness :
  nth_error (messages (step utcHost 60 (SocketMessage 0 (stream_end [])) streaming)) 1
  = Some (userMessageOf (L "hi") 30).
Proof.
  destruct (@network_keeps_messages utcHost 60
              (SocketMessage 0 (stream_end [])) streaming I) as (_ & P).
  apply P; [vm_compute; reflexivity | left; discriminate].
Defined.

(** ** Sending *)

(** What a send that goes through does to every part of the state the
    handlers of the store read. *)
Lemma handleSend_through now s :
  nonempty (trim (input s)) = true -> connected_once s ->
  let s' := snd (handleSend now s) in
  fst (handleSend now s) = Returned
  /\ messages s' = newMessagesOf s now
  /\ input s' = []
  /\ history s' = updatedHistoryOf s (newMessagesOf s now) now
  /\ localStorage s' = Some (updatedHistoryOf s (newMessagesOf s now) now)
  /\ currentConversationId s'
     = match activeId s with
       | Some _ => currentConversationId s
       | None => Some (toString now)
       end
  /\ outbox s' = outbox s ++ (if socket_open s then sentFrame s else [])
  /\ wsRef s' = wsRef s /\ sockets s' = sockets s.
Proof.
  intros In (i & Ws & Rs).
  unfold handleSend, andThen, update, ws_send, socket_open, sentFrame,
    newMessagesOf.
  rewrite In, Ws. cbn. rewrite Ws.
  destruct (option_map readyState (nth_error (sockets s) i)) as [[| | |]|];
    try congruence; cbn; destruct (activeId s); cbn;
    rewrite ?app_nil_r; repeat split; auto.
Qed.

Lemma trim_blank (s : str) : forallb is_space s = true -> trim s = [].
Proof.
  intros B. unfold trim.
  assert (E : trimStart s = []).
  { induction s as [|c s IH]; [reflexivity|].
    cbn in *. apply andb_true_iff in B. destruct B as [-> B]. now apply IH. }
  now rewrite E.
Qed.

(** X11.  A send with a blank input (empty, or white space only), or without
    a socket, does nothing at all: the handler returns and the state is as
    before. *)
Theorem handleSend_blank (now : Z) (s : State) :
  forallb is_space (input s) = true \/ wsRef s = None ->
  handleSend now s = (Returned, s).
Proof.
  intros [B| W]; unfold handleSend.
  - now rewrite (trim_blank _ B).
  - rewrite W. now rewrite orb_true_r.
Qed.

(** X11, witness: three blanks typed on the open page. *)
Lemma handleSend_blank_witness :
  handleSend 30 (set_input (L "   ") opened)
  = (Returned, set_input (L "   ") opened).
Proof. apply handleSend_blank. left. reflexivity. Defined.

(** X12.  A send while the socket is still connecting throws after the
    message list has been updated: the user message and the placeholder are
    shown, but nothing is transmitted, the input is not cleared, and neither
    the history nor the archive is written.  A send on a socket that is
    closing or closed returns normally and writes the history and the
    archive, but transmits nothing. *)
Theorem handleSend_socket_not_open (now : Z) (s : State) :
  nonempty (trim (input s)) = true ->
  (connecting s ->
   handleSend now s
   = (Threw (L "InvalidStateError"), set_messages (newMessagesOf s now) s))
  /\ (connected_once s -> socket_open s = false ->
      fst (handleSend now s) = Returned
      /\ outbox (snd (handleSend now s)) = outbox s
      /\ localStorage (snd (handleSend now s))
         = Some (updatedHistoryOf s (newMessagesOf s now) now)).
Proof.
  intros In. split.
  - intros (i & Ws & Rs).
    unfold handleSend, andThen, update, ws_send, newMessagesOf.
    rewrite In, Ws. cbn. now rewrite Ws, Rs.
  - intros C O.
    destruct (@handleSend_through now s In C) as (R & _ & _ & _ & Ls & _ & Ob & _).
    rewrite O, app_nil_r in Ob. auto.
Qed.

(** X12, witness: a send right after the mount, before the socket opens. *)
Lemma handleSend_socket_not_open_witness :
  let s := set_input (L "hi") (mount 0 None) in
  fst (handleSend 5 s) = Threw (L "InvalidStateError")
  /\ messages (snd (handleSend 5 s))
     = [greeting 0; userMessageOf (L "hi") 5; placeholder 5]
  /\ localStorage (snd (handleSend 5 s)) = None
  /\ outbox (snd (handleSend 5 s)) = [].
Proof.
  cbv zeta.
  destruct (@handleSend_socket_not_open 5 (set_input (L "hi") (mount 0 None)))
    as (T & _); [vm_compute; reflexivity|].
  rewrite T; [repeat split|].
  exists 0%nat. split; reflexivity.
Defined.

(** ** The snippet *)

(** X13.  The snippet of a new conversation is the input when that has at
    most 30 characters, and otherwise its first 30 characters followed by
    three dots; it is never longer than 33 characters. *)
Theorem snippetOf_bounds (input : str) :
  ((length input <= 30)%nat -> snippetOf input = input)
  /\ ((30 < length input)%nat -> snippetOf input = firstn 30 input ++ L "...")
  /\ (length (snippetOf input) <= 33)%nat.
Proof.
  assert (Sl : slice input 0 30 = firstn 30 input).
  { unfold slice, rel_index.
    change (0 <? 0) with false. change (30 <? 0) with false. cbv iota.
    replace (Z.to_nat (Z.min 0 (Z.of_nat (length input)))) with 0%nat by lia.
    replace (Z.to_nat (Z.min 30 (Z.of_nat (length input))))
      with (Nat.min 30 (length input)) by lia.
    cbn [skipn]. rewrite Nat.sub_0_r.
    destruct (Nat.le_gt_cases (length input) 30) as [Le|Gt].
    - rewrite Nat.min_r by lia. now rewrite !firstn_all2 by lia.
    - now rewrite Nat.min_l by lia. }
  unfold snippetOf. rewrite Sl.
  split; [|split].
  - intros Le. destruct (Nat.ltb_spec 30 (length input)); [lia|].
    now rewrite app_nil_r, firstn_all2.
  - intros Gt. now destruct (Nat.ltb_spec 30 (length input)); [|lia].
  - destruct (Nat.ltb_spec 30 (length input));
      rewrite length_app, length_firstn;
      [change (length (L "...")) with 3%nat | change (length (@nil ascii)) with 0%nat];
      lia.
Qed.

(** ** The conversation store *)

Lemma str_eqb_refl a : str_eqb a a = true.
Proof. now apply str_eqb_eq. Qed.

Lemma activeId_pointer s cid :
  activeId s = Some cid -> currentConversationId s = Some cid.
Proof.
  unfold activeId. destruct (currentConversationId s) as [[|c i]|];
    congruence.
Qed.

Lemma find_replaced cid ms (l : list Conversation) :
  find (fun conv => str_eqb (id conv) cid)
    (map (fun conv => if str_eqb (id conv) cid then withMessages ms conv
                      else conv) l)
  = option_map (withMessages ms) (find (fun conv => str_eqb (id conv) cid) l).
Proof.
  induction l as [|conv l IH]; [reflexivity|]. cbn [map find].
  destruct (str_eqb (id conv) cid) eqn:E; cbn [id withMessages];
    now rewrite E.
Qed.

Lemma find_other_kept cid cid' ms (l : list Conversation) :
  find (fun conv => str_eqb (id conv) cid')
    (map (fun conv => if str_eqb (id conv) cid then withMessages ms conv
                      else conv) l) = None
  <-> find (fun conv => str_eqb (id conv) cid') l = None.
Proof.
  induction l as [|conv l IH]; [reflexivity|]. cbn [map find].
  destruct (str_eqb (id conv) cid); cbn [id withMessages];
    destruct (str_eqb (id conv) cid'); try exact IH; split; discriminate.
Qed.

Lemma find_snoc {A} (p : A -> bool) l x :
  find p (l ++ [x])
  = match find p l with
    | Some y => Some y
    | None => if p x then Some x else None
    end.
Proof.
  induction l as [|a l IH]; cbn; [reflexivity|]. now destruct (p a).
Qed.

Lemma updatedHistoryOf_cases s ms now :
  updatedHistoryOf s ms now
  = match activeId s with
    | Some cid =>
        map (fun conv => if str_eqb (id conv) cid then withMessages ms conv
                         else conv) (history s)
    | None =>
        history s ++ [{| id := toString now; conv_messages := ms;
                         snippet := snippetOf (input s);
                         conv_timestamp := now |}]
    end.
Proof. reflexivity. Qed.

(** What a load does to the message list and the pointer. *)
Lemma handleLoadConversation_fields cid s :
  let s' := snd (handleLoadConversation cid s) in
  storeOf s' = (history s, localStorage s,
                match findConversation cid s with
                | Some _ => Some cid
                | None => currentConversationId s
                end)
  /\ messages s' = match findConversation cid s with
                   | Some conversation => conv_messages conversation
                   | None => messages s
                   end.
Proof.
  unfold findConversation, handleLoadConversation, andThen, update, ws_send,
    storeOf.
  destruct (find _ (history s)); cbn; [|now split].
  handler_cases.
Qed.

(** X14.  Round trip: after a send that goes through, loading the
    conversation under which the send filed its messages gives back exactly
    the messages of the send, in order, and makes that conversation the
    active one.  For the first send of a conversation this needs the new
    identifier (the time of the send) not to be the identifier of an older
    conversation. *)
Theorem send_then_load (now : Z) (s : State) :
  nonempty (trim (input s)) = true -> connected_once s ->
  (activeId s = None -> findConversation (toString now) s = None) ->
  let s' := snd (handleSend now s) in
  let loaded := snd (handleLoadConversation (filedUnder s now) s') in
  messages loaded = newMessagesOf s now
  /\ currentConversationId loaded = Some (filedUnder s now).
Proof.
  intros In C Fresh s' loaded.
  destruct (@handleSend_through now s In C) as (_ & M & _ & H & _ & P & _).
  fold s' in M, H, P.
  destruct (handleLoadConversation_fields (filedUnder s now) s') as (St & Ml).
  fold loaded in St, Ml. unfold storeOf in St.
  assert (Pl : currentConversationId loaded
                = match findConversation (filedUnder s now) s' with
                  | Some _ => Some (filedUnder s now)
                  | None => currentConversationId s'
                  end) by congruence.
  rewrite Ml, Pl, M, P. clear St Ml Pl.
  unfold findConversation, filedUnder in *. rewrite H, updatedHistoryOf_cases.
  destruct (activeId s) as [cid|] eqn:A.
  - rewrite find_replaced, (activeId_pointer _ A).
    clear Fresh. destruct (find _ (history s)); cbn; split; reflexivity.
  - rewrite find_snoc, (Fresh eq_refl). cbn [id].
    now rewrite str_eqb_refl.
Qed.

(** X14, witness: the first send of the sample run, then a load. *)
Lemma send_then_load_witness :
  messages (snd (handleLoadConversation (L "30") sent))
  = [greeting 0; userMessageOf (L "hi") 30; placeholder 30].
Proof.
  destruct (@send_then_load 30 (set_input (L "hi") opened)) as (M & _).
  - vm_compute. reflexivity.
  - exists 0%nat. split; [reflexivity | vm_compute; discriminate].
  - intros _. vm_compute. reflexivity.
  - etransitivity; [|etransitivity; [exact M|]]; vm_compute; reflexivity.
Defined.

(** X15.  A send that goes through never removes or reorders a
    conversation: the identifiers of the history stay in place, with the new
    identifier appended when no conversation is active, and every
    conversation whose identifier is not the active one is left as it
    was. *)
Theorem send_keeps_conversations (now : Z) (s : State) :
  nonempty (trim (input s)) = true -> connected_once s ->
  let s' := snd (handleSend now s) in
  map id (history s')
  = map id (history s)
    ++ match activeId s with Some _ => [] | None => [toString now] end
  /\ (forall i conv, nth_error (history s) i = Some conv ->
        activeId s <> Some (id conv) ->
        nth_error (history s') i = Some conv).
Proof.
  intros In C s'.
  destruct (@handleSend_through now s In C) as (_ & _ & _ & H & _).
  fold s' in H. rewrite H, updatedHistoryOf_cases.
  destruct (activeId s) as [cid|].
  - split.
    + rewrite app_nil_r, map_map. apply map_ext.
      intros conv. now destruct (str_eqb (id conv) cid).
    + intros i conv E N. rewrite nth_error_map, E. cbn [option_map].
      destruct (str_eqb (id conv) cid) eqn:Eq; [|reflexivity].
      apply str_eqb_eq in Eq. congruence.
  - split; [now rewrite map_app|].
    intros i conv E _. rewrite nth_error_app1; [exact E|].
    apply nth_error_Some. congruence.
Qed.

(** X15, witness: a second send in the conversation of the sample run. *)
Lemma send_keeps_conversations_witness :
  map id (history (snd (handleSend 90 (set_input (L "more") sent))))
  = [L "30"].
Proof.
  destruct (@send_keeps_conversations 90 (set_input (L "more") sent)) as (M & _).
  - vm_compute. reflexivity.
  - exists 0%nat. split; [reflexivity | vm_compute; discriminate].
  - etransitivity; [exact M|]. vm_compute. reflexivity.
Defined.
